(** * Gourmet-Hub: the restaurant finder, the chat assistant and the
    AI integration service, embedded from the TypeScript sources

    - [types.ts]                      the data model
    - [services/gemini.ts]            [findRestaurants], [sendMessageStream]
    - [components/RestaurantFinder.tsx]  [requestLocation], [toggleFilter],
                                      [handleSearch], [getRestaurantStats]
    - [components/ChatBot.tsx]        [handleSend]

    A handler runs against a world record: the state of the component, the
    device and the services it talks to, and a log of the calls that left
    the component.  React does not apply a [setX] call when it is made: the
    updates of one task are applied together at the next render, and what
    the component holds and shows changes only there.  Each world therefore
    has a [render] step and a log of the renders.  JavaScript exceptions are
    the [Throw] outcome of a small state-and-error monad. *)

From stdpp Require Import base list strings pretty.
From Stdlib Require Import Ascii ZArith Lia.
From Stdlib Require Import Floats.PrimFloat Floats.SpecFloat.

(** ** Strings *)

Module Str.

(** A JavaScript string is a sequence of UTF-16 code units.  It is embedded
    as the bytes of its UTF-8 encoding, which is what a string literal of
    this file holds.  Equality, concatenation and [join] are the same on
    either form. *)

(** [contains t s]: [s] occurs in [t] as a contiguous run of characters
    (JavaScript's [t.includes(s)]). *)
Definition contains (t s : string) : Prop :=
  ∃ pre post, t = pre +:+ s +:+ post.

Fixpoint prefixb (s t : string) : bool :=
  match s, t with
  | EmptyString, _ => true
  | String a s', String b t' => bool_decide (a = b) && prefixb s' t'
  | String _ _, EmptyString => false
  end.

Fixpoint containsb (t s : string) : bool :=
  prefixb s t ||
  match t with
  | EmptyString => false
  | String _ t' => containsb t' s
  end.

(** Index of the first occurrence of [s] in [t] (JavaScript's
    [t.indexOf(s)], with [None] for -1). *)
Fixpoint indexOf (t s : string) : option nat :=
  if prefixb s t then Some 0
  else match t with
       | EmptyString => None
       | String _ t' => S <$> indexOf t' s
       end.

(** [Array.prototype.join]: the elements separated by [sep]; the empty
    array gives the empty string. *)
Fixpoint join (sep : string) (l : list string) : string :=
  match l with
  | [] => ""
  | [x] => x
  | x :: l' => x +:+ sep +:+ join sep l'
  end.

(** What [trim] strips: the white space and the line terminators of
    ECMAScript, each code point in its UTF-8 encoding.  They are TAB, LF, VT,
    FF, CR, the space, U+00A0, U+1680, U+2000 to U+200A, U+2028, U+2029,
    U+202F, U+205F, U+3000 and U+FEFF. *)
Definition whiteSpace : list string :=
  [ String "009" ""; String "010" ""; String "011" ""; String "012" "";
    String "013" ""; String "032" "";
    String "194" (String "160" "");
    String "225" (String "154" (String "128" ""));
    String "226" (String "128" (String "128" ""));
    String "226" (String "128" (String "129" ""));
    String "226" (String "128" (String "130" ""));
    String "226" (String "128" (String "131" ""));
    String "226" (String "128" (String "132" ""));
    String "226" (String "128" (String "133" ""));
    String "226" (String "128" (String "134" ""));
    String "226" (String "128" (String "135" ""));
    String "226" (String "128" (String "136" ""));
    String "226" (String "128" (String "137" ""));
    String "226" (String "128" (String "138" ""));
    String "226" (String "128" (String "168" ""));
    String "226" (String "128" (String "169" ""));
    String "226" (String "128" (String "175" ""));
    String "226" (String "129" (String "159" ""));
    String "227" (String "128" (String "128" ""));
    String "239" (String "187" (String "191" "")) ]%char.

(** The string without the [tokens] it begins with; a token has one, two
    or three bytes. *)
Fixpoint strip (tokens : list string) (s : string) : string :=
  match s with
  | "" => ""
  | String c1 s1 =>
      if bool_decide (String c1 "" ∈ tokens) then strip tokens s1
      else
        match s1 with
        | "" => s
        | String c2 s2 =>
            if bool_decide (String c1 (String c2 "") ∈ tokens)
            then strip tokens s2
            else
              match s2 with
              | "" => s
              | String c3 s3 =>
                  if bool_decide
                       (String c1 (String c2 (String c3 "")) ∈ tokens)
                  then strip tokens s3
                  else s
              end
        end
  end.

(** [String.prototype.trimStart], [trimEnd] and [trim] *)
Definition trimStart (s : string) : string := strip whiteSpace s.

Definition trimEnd (s : string) : string :=
  String.rev (strip (String.rev <$> whiteSpace) (String.rev s)).

Definition trim (s : string) : string := trimEnd (trimStart s).

End Str.

(** JavaScript truthiness of a possibly absent string: [undefined] and
    the empty string are falsy. *)
Definition truthy (s : option string) : bool :=
  match s with
  | Some s => negb (bool_decide (s = ""))
  | None => false
  end.

(** ** The monad of a handler: state and exceptions

    A handler runs against a world [W]; it either returns a value or throws.
    The payload of an exception is dropped: every [catch] of the sources only
    logs it. *)

Inductive outcome (A : Type) : Type :=
  | Ok (a : A)
  | Throw.
Arguments Ok {A} a.
Arguments Throw {A}.

Definition M (W A : Type) : Type := W → outcome A * W.

Global Instance handler_ret {W} : MRet (M W) := λ A a w, (Ok a, w).

Global Instance handler_bind {W} : MBind (M W) := λ A B k m w,
  match m w with
  | (Ok a, w') => k a w'
  | (Throw, w') => (Throw, w')
  end.

Section Handler.
Context {W : Type}.

Definition throw {A} : M W A := λ w, (Throw, w).

Definition modify (f : W → W) : M W unit := λ w, (Ok tt, f w).

Definition gets {A} (f : W → A) : M W A := λ w, (Ok (f w), w).

(** [try { body } catch { handler }] *)
Definition try_catch {A} (body handler : M W A) : M W A :=
  λ w, match body w with
       | (Ok a, w') => (Ok a, w')
       | (Throw, w') => handler w'
       end.

(** [{ body } finally { fin }]: [fin] runs on both exits and the body's
    outcome is kept. *)
Definition finally {A} (body : M W A) (fin : M W unit) : M W A :=
  λ w, match body w with
       | (o, w') => match fin w' with
                    | (Ok _, w'') => (o, w'')
                    | (Throw, w'') => (Throw, w'')
                    end
       end.

(** [for (const x of xs) { ... }] around a local variable that the body
    reassigns: the variable is passed from one iteration to the next. *)
Fixpoint for_of {A S} (xs : list A) (acc : S) (body : S → A → M W S)
    : M W S :=
  match xs with
  | [] => mret acc
  | x :: xs' => acc' ← body acc x; for_of xs' acc' body
  end.

Definition exec {A} (m : M W A) (w : W) : W := snd (m w).
Definition result_of {A} (m : M W A) (w : W) : outcome A := fst (m w).
End Handler.

(** ** types.ts *)

Record Coordinates := {
  latitude : float;
  longitude : float;
}.

Module CuisineType.
Definition ANY := "Any Cuisine".
Definition ITALIAN := "Italian".
Definition MEXICAN := "Mexican".
Definition CHINESE := "Chinese".
Definition JAPANESE := "Japanese".
Definition INDIAN := "Indian".
Definition AMERICAN := "American".
Definition FRENCH := "French".
Definition THAI := "Thai".
Definition MEDITERRANEAN := "Mediterranean".
Definition VEGAN := "Vegan".
(** [Object.values(CuisineType)] *)
Definition values : list string :=
  [ANY; ITALIAN; MEXICAN; CHINESE; JAPANESE; INDIAN; AMERICAN; FRENCH;
   THAI; MEDITERRANEAN; VEGAN].
End CuisineType.

Module PriceRange.
Definition ANY := "Any Price".
Definition CHEAP := "$".
Definition MODERATE := "$$".
Definition EXPENSIVE := "$$$".
Definition LUXURY := "$$$$".
Definition values : list string := [ANY; CHEAP; MODERATE; EXPENSIVE; LUXURY].
End PriceRange.

Record ReviewSnippet := { snippet_content : string }.

Record PlaceAnswerSources := {
  reviewSnippets : option (list ReviewSnippet);
}.

Record MapsInfo := {
  uri : string;
  title : string;
  placeId : option string;
  placeAnswerSources : option PlaceAnswerSources;
}.

Record GroundingChunk := { maps : option MapsInfo }.

Record RestaurantResult := {
  text : string;
  groundingChunks : list GroundingChunk;
}.

Inductive Role := user | model.

Record ChatMessage := {
  id : string;
  role : Role;
  content : string;
  isStreaming : option bool;   (* [isStreaming?: boolean] *)
}.

(** [rating] is the star count of the review form: a whole number, from 1
    to 5 in every review the form produces. *)
Record Review := {
  review_id : string;
  restaurantTitle : string;
  rating : Z;
  comment : string;
  timestamp : Z;
}.

(** [DietaryRestriction] and [Amenity] are unions of string literals. *)
Definition DietaryRestriction := string.
Definition Amenity := string.

Definition dietaryOptions : list DietaryRestriction :=
  ["Vegetarian"; "Vegan"; "Gluten-Free"; "Halal"].
Definition amenityOptions : list Amenity :=
  ["Outdoor Seating"; "Wi-Fi"; "Pet Friendly"; "Parking"].

(** ** services/gemini.ts *)

(** The part of the provider's [GenerateContentResponse] the sources read:
    the [text] getter, and the path
    [candidates?.[0]?.groundingMetadata?.groundingChunks]. *)
Module Provider.
Record GroundingMetadata := {
  groundingChunks : option (list GroundingChunk);
}.
Record Candidate := {
  groundingMetadata : option GroundingMetadata;
}.
Record GenerateContentResponse := {
  text : option string;
  candidates : option (list Candidate);
}.
(** The argument of [ai.models.generateContent]; [tools] is always
    [[{ googleMaps: {} }]]. *)
Record GenerateContentRequest := {
  model : string;
  contents : string;
  latLng : Coordinates;
}.
End Provider.

(** The boundary to the generative-AI platform: a world that can answer
    [ai.models.generateContent]. *)
Class AiModels (W : Type) :=
  generateContent :
    Provider.GenerateContentRequest → M W Provider.GenerateContentResponse.

Module Gemini.

Definition LF : string := String "010"%char "".

(** The local variable [filterText] of [findRestaurants], with its three
    conditional [+=]. *)
Definition filterText (dietary : list DietaryRestriction)
    (amenities : list Amenity) (dishes : option string) : string :=
  let filterText := "" in
  let filterText :=
    if bool_decide (0 < length dietary) then
      filterText +:+ "The user specifically requires these dietary options: "
        +:+ Str.join ", " dietary +:+ ". "
    else filterText in
  let filterText :=
    if bool_decide (0 < length amenities) then
      filterText +:+ "The user specifically requires these amenities: "
        +:+ Str.join ", " amenities +:+ ". "
    else filterText in
  let filterText :=
    if truthy dishes then
      filterText +:+ "The user is interested in these specific dishes: "
        +:+ default "" dishes +:+ ". "
    else filterText in
  filterText.

(** The template literal bound to [prompt]. *)
Definition prompt (cuisine price : string)
    (dietary : list DietaryRestriction) (amenities : list Amenity)
    (dishes : option string) : string :=
  "Find top-rated "
    +:+ (if bool_decide (cuisine = "Any Cuisine") then "" else cuisine)
    +:+ " restaurants near me that are in the "
    +:+ (if bool_decide (price = "Any Price") then "any" else price)
    +:+ " price range. " +:+ LF
    +:+ "  " +:+ filterText dietary amenities dishes +:+ LF
    +:+ "  Provide a helpful summary of the top recommendations, mentioning their ratings, specific matches for the user's requirements, and what they are known for." +:+ LF
    +:+ "  Do not invent places. Only use the Google Maps tool to find real places.".

(** [response.text || "No details found."] *)
Definition responseText (response : Provider.GenerateContentResponse) : string :=
  if truthy (Provider.text response) then default "" (Provider.text response)
  else "No details found.".

(** [response.candidates?.[0]?.groundingMetadata?.groundingChunks || []];
    an array, even an empty one, is truthy. *)
Definition responseChunks (response : Provider.GenerateContentResponse)
    : list GroundingChunk :=
  let first := Provider.candidates response ≫= (λ cs, cs !! 0) in
  let metadata := first ≫= Provider.groundingMetadata in
  let chunks := metadata ≫= Provider.groundingChunks in
  match chunks with
  | Some chunks => chunks
  | None => []
  end.

Definition findRestaurants {W} `{AiModels W} (coords : Coordinates)
    (cuisine price : string) (dietary : list DietaryRestriction)
    (amenities : list Amenity) (dishes : option string)
    : M W RestaurantResult :=
  let model := "gemini-2.5-flash" in
  let prompt := prompt cuisine price dietary amenities dishes in
  try_catch
    (response ← generateContent
       {| Provider.model := model;
          Provider.contents := prompt;
          Provider.latLng := {| latitude := latitude coords;
                                longitude := longitude coords |} |};
     let text := responseText response in
     let groundingChunks := responseChunks response in
     mret {| text := text; groundingChunks := groundingChunks |})
    (* console.error(...); throw error *)
    throw.

End Gemini.

(** ** components/RestaurantFinder.tsx *)

Module Finder.

(** ['idle' | 'loading' | 'success' | 'error']; the last is [error_status]
    here, [error] being the name of the message state. *)
Inductive LocationStatus := idle | loading | success | error_status.

Global Instance LocationStatus_eq_dec : EqDecision LocationStatus.
Proof. solve_decision. Defined.

(** The [useState] cells of the component. *)
Record State := {
  location : option Coordinates;
  locationStatus : LocationStatus;
  cuisine : string;
  price : string;
  showFilters : bool;
  dietary : list DietaryRestriction;
  amenities : list Amenity;
  customDish : string;
  isSearching : bool;
  result : option RestaurantResult;
  error : option string;
  reviews : list Review;
  reviewModalOpen : bool;
  selectedRestaurant : option (string * string);
  newRating : Z;
  newComment : string;
}.

(** The state at mount, with [reviews] as read from [localStorage]. *)
Definition initialState (saved : list Review) : State := {|
  location := None;
  locationStatus := idle;
  cuisine := CuisineType.ANY;
  price := PriceRange.ANY;
  showFilters := false;
  dietary := [];
  amenities := [];
  customDish := "";
  isSearching := false;
  result := None;
  error := None;
  reviews := saved;
  reviewModalOpen := false;
  selectedRestaurant := None;
  newRating := 5;
  newComment := "";
|}.

(** What [navigator.geolocation.getCurrentPosition] will call back with. *)
Inductive PositionOutcome :=
  | Position (coords : Coordinates)
  | PositionError (code : nat).

(** [navigator.geolocation]: absent on a device without the capability. *)
Record Navigator := {
  geolocation : option PositionOutcome;
}.

(** The world of the component: its state, the device and the provider it
    runs against, the renders, and a log of every position request and of
    every request sent to the AI service.

    Every update of this component is a value ([setX(v)], never an updater
    function), so the state the next render holds is the state with the
    updates applied in the order of the calls: [state] is that state, and
    after a handler has run it is the state the component ends in.
    [needsRender] tells that an update was made since the last render.
    [rendered] lists the states the component held at the renders that
    took place: the handlers below are the source functions, the render
    that follows an event is [onClick], the renders around a callback of
    the device are [later]. *)
Record World := {
  state : State;
  navigator : Navigator;
  provider : Provider.GenerateContentRequest
             → option Provider.GenerateContentResponse;
  needsRender : bool;
  rendered : list State;
  positionRequests : nat;
  aiCalls : list Provider.GenerateContentRequest;
}.

Definition mount (saved : list Review) (nav : Navigator)
    (p : Provider.GenerateContentRequest
         → option Provider.GenerateContentResponse) : World := {|
  state := initialState saved;
  navigator := nav;
  provider := p;
  needsRender := false;
  rendered := [];
  positionRequests := 0;
  aiCalls := [];
|}.

(** The location statuses the component has held from [w0] to [w]: the one
    it holds in [w0], where it is at rest, then the one at each render
    since. *)
Definition statusesVisited (w0 w : World) : list LocationStatus :=
  locationStatus <$> (state w0 :: drop (length (rendered w0)) (rendered w)).

(** A state update: it waits for the next render. *)
Definition with_state (f : State → State) (w : World) : World :=
  {| state := f (state w); navigator := navigator w; provider := provider w;
     needsRender := true; rendered := rendered w;
     positionRequests := positionRequests w; aiCalls := aiCalls w |}.

(** React renders: the updates made since the last render take effect
    together, and the component holds the resulting state.  Without an
    update there is nothing to render. *)
Definition render : M World unit :=
  modify (λ w,
    if needsRender w then
      {| state := state w; navigator := navigator w; provider := provider w;
         needsRender := false; rendered := rendered w ++ [state w];
         positionRequests := positionRequests w; aiCalls := aiCalls w |}
    else w).

(** [onClick={handler}]: React runs the handler and renders once the work
    it started is done. *)
Definition onClick (handler : M World unit) : M World unit :=
  handler;; render.

(** A callback handed to the browser: it runs in a task of its own, after
    the code that registered it has returned and React has rendered, and
    React renders again when it is done. *)
Definition later (callback : M World unit) : M World unit :=
  render;; callback;; render.

Definition setLocation (v : option Coordinates) : M World unit :=
  modify (with_state (λ s,
    {| location := v; locationStatus := locationStatus s;
       cuisine := cuisine s; price := price s; showFilters := showFilters s;
       dietary := dietary s; amenities := amenities s;
       customDish := customDish s; isSearching := isSearching s;
       result := result s; error := error s; reviews := reviews s;
       reviewModalOpen := reviewModalOpen s;
       selectedRestaurant := selectedRestaurant s;
       newRating := newRating s; newComment := newComment s |})).

Definition setLocationStatus (v : LocationStatus) : M World unit :=
  modify (with_state (λ s,
    {| location := location s; locationStatus := v;
       cuisine := cuisine s; price := price s; showFilters := showFilters s;
       dietary := dietary s; amenities := amenities s;
       customDish := customDish s; isSearching := isSearching s;
       result := result s; error := error s; reviews := reviews s;
       reviewModalOpen := reviewModalOpen s;
       selectedRestaurant := selectedRestaurant s;
       newRating := newRating s; newComment := newComment s |})).

Definition setDietary (v : list DietaryRestriction) : M World unit :=
  modify (with_state (λ s,
    {| location := location s; locationStatus := locationStatus s;
       cuisine := cuisine s; price := price s; showFilters := showFilters s;
       dietary := v; amenities := amenities s;
       customDish := customDish s; isSearching := isSearching s;
       result := result s; error := error s; reviews := reviews s;
       reviewModalOpen := reviewModalOpen s;
       selectedRestaurant := selectedRestaurant s;
       newRating := newRating s; newComment := newComment s |})).

Definition setAmenities (v : list Amenity) : M World unit :=
  modify (with_state (λ s,
    {| location := location s; locationStatus := locationStatus s;
       cuisine := cuisine s; price := price s; showFilters := showFilters s;
       dietary := dietary s; amenities := v;
       customDish := customDish s; isSearching := isSearching s;
       result := result s; error := error s; reviews := reviews s;
       reviewModalOpen := reviewModalOpen s;
       selectedRestaurant := selectedRestaurant s;
       newRating := newRating s; newComment := newComment s |})).

Definition setIsSearching (v : bool) : M World unit :=
  modify (with_state (λ s,
    {| location := location s; locationStatus := locationStatus s;
       cuisine := cuisine s; price := price s; showFilters := showFilters s;
       dietary := dietary s; amenities := amenities s;
       customDish := customDish s; isSearching := v;
       result := result s; error := error s; reviews := reviews s;
       reviewModalOpen := reviewModalOpen s;
       selectedRestaurant := selectedRestaurant s;
       newRating := newRating s; newComment := newComment s |})).

Definition setResult (v : option RestaurantResult) : M World unit :=
  modify (with_state (λ s,
    {| location := location s; locationStatus := locationStatus s;
       cuisine := cuisine s; price := price s; showFilters := showFilters s;
       dietary := dietary s; amenities := amenities s;
       customDish := customDish s; isSearching := isSearching s;
       result := v; error := error s; reviews := reviews s;
       reviewModalOpen := reviewModalOpen s;
       selectedRestaurant := selectedRestaurant s;
       newRating := newRating s; newComment := newComment s |})).

Definition setError (v : option string) : M World unit :=
  modify (with_state (λ s,
    {| location := location s; locationStatus := locationStatus s;
       cuisine := cuisine s; price := price s; showFilters := showFilters s;
       dietary := dietary s; amenities := amenities s;
       customDish := customDish s; isSearching := isSearching s;
       result := result s; error := v; reviews := reviews s;
       reviewModalOpen := reviewModalOpen s;
       selectedRestaurant := selectedRestaurant s;
       newRating := newRating s; newComment := newComment s |})).

(** [navigator.geolocation.getCurrentPosition(onSuccess, onError)]: the
    request is counted and the call returns; the device's answer is handed
    to the matching callback later.  The call is the last statement of
    [requestLocation], so nothing of the handler runs after it. *)
Definition getCurrentPosition (answer : PositionOutcome)
    (onSuccess : Coordinates → M World unit)
    (onError : nat → M World unit) : M World unit :=
  modify (λ w,
    {| state := state w; navigator := navigator w; provider := provider w;
       needsRender := needsRender w; rendered := rendered w;
       positionRequests := S (positionRequests w);
       aiCalls := aiCalls w |});;
  later
    match answer with
    | Position coords => onSuccess coords
    | PositionError code => onError code
    end.

Definition requestLocation : M World unit :=
  setLocationStatus loading;;
  nav ← gets navigator;
  match geolocation nav with
  | None =>
      setLocationStatus error_status;;
      setError (Some "Geolocation is not supported by your browser.")
  | Some answer =>
      getCurrentPosition answer
        (λ position,
           setLocation (Some {| latitude := latitude position;
                                longitude := longitude position |});;
           setLocationStatus success;;
           setError None)
        (λ err,
           setLocationStatus error_status;;
           setError
             (Some "Unable to retrieve your location. Please check permissions."))
  end.

(** [toggleFilter(item, current, setFn)]: the list handed to [setFn]. *)
Definition toggleFilter {T} `{EqDecision T} (item : T) (current : list T)
    : list T :=
  if bool_decide (item ∈ current) then filter (λ i, i ≠ item) current
  else current ++ [item].

(** The two call sites of [toggleFilter] in the filter chips. *)
Definition toggleDietary (option : DietaryRestriction) : M World unit :=
  current ← gets (dietary ∘ state);
  setDietary (toggleFilter option current).

Definition toggleAmenity (option : Amenity) : M World unit :=
  current ← gets (amenities ∘ state);
  setAmenities (toggleFilter option current).

(** The finder's world answers [generateContent] from its provider and
    logs the request; a provider without an answer is a failed call. *)
Global Instance finder_ai : AiModels World := λ req w,
  let w' := {| state := state w; navigator := navigator w;
               provider := provider w; needsRender := needsRender w;
               rendered := rendered w;
               positionRequests := positionRequests w;
               aiCalls := aiCalls w ++ [req] |} in
  match provider w req with
  | Some response => (Ok response, w')
  | None => (Throw, w')
  end.

Definition handleSearch : M World unit :=
  s ← gets state;
  match location s with
  | None =>
      setError
        (Some "Please enable location services to find restaurants nearby.")
  | Some loc =>
      setIsSearching true;;
      setError None;;
      setResult None;;
      finally
        (try_catch
           (data ← Gemini.findRestaurants loc (cuisine s) (price s)
                     (dietary s) (amenities s) (Some (customDish s));
            setResult (Some data))
           (setError
              (Some "Failed to fetch recommendations. Please try again later.")))
        (setIsSearching false)
  end.

End Finder.

(** ** Numbers: the quotient of two integers and [toFixed(1)]

    A JavaScript number is a binary64 value.  The numbers embedded here are
    whole numbers and the quotient of two of them.  Star ratings are whole
    numbers from 1 to 5 and a list has fewer than 2^32 elements, so every
    partial sum of [getRestaurantStats] is a whole number below 2^53, where
    binary64 addition is exact; the one inexact step is the division, which
    rounds the quotient to the nearest binary64 value, ties to the even
    significand; and the mean is below 10^21, where [toFixed] prints plain
    digits.  Numbers read back from a tampered store (fractions, ratings
    whose sum reaches 2^53, means from 10^21 on) are outside the
    embedding. *)

Module Number.

(** A finite binary64 value, [mantissa * 2 ^ exponent]. *)
Record Double := {
  mantissa : Z;
  exponent : Z;
}.

Local Open Scope Z_scope.

(** [a * 2^k / b] as a fraction of integers, for either sign of [k]. *)
Definition scaled (a b k : Z) : Z * Z :=
  if 0 <=? k then (a * 2 ^ k, b) else (a, b * 2 ^ (- k)).

(** [a / b] for integers [a] and [b > 0] of magnitude below 2^53: the
    significand is brought into [2^52, 2^53) and rounded to nearest, ties
    to even. *)
Definition div (a b : Z) : Double :=
  if a =? 0 then {| mantissa := 0; exponent := 0 |}
  else
    let a' := Z.abs a in
    let k0 := 52 - (Z.log2 a' - Z.log2 b) in
    let '(n0, d0) := scaled a' b k0 in
    let k := if n0 / d0 <? 2 ^ 52 then k0 + 1 else k0 in
    let '(n, d) := scaled a' b k in
    let q := n / d in
    let r := n mod d in
    let m := if (d <? 2 * r) || ((d =? 2 * r) && Z.odd q) then q + 1 else q in
    let '(m, k) := if m =? 2 ^ 53 then (2 ^ 52, k - 1) else (m, k) in
    {| mantissa := Z.sgn a * m; exponent := - k |}.

(** The value of a double as a fraction with a positive denominator. *)
Definition fraction (x : Double) : Z * Z :=
  if 0 <=? exponent x then (mantissa x * 2 ^ exponent x, 1)
  else (mantissa x, 2 ^ (- exponent x)).

(** The number of tenths [n] for which [n / 10 - x] is closest to zero, the
    larger [n] when two are as close (step 5 of [Number.prototype.toFixed]),
    for [x >= 0] given as a fraction. *)
Definition tenths (p q : Z) : Z := (20 * p + q) / (2 * q).

(** The digits [toFixed(1)] prints for [n] tenths. *)
Definition render_tenths (n : Z) : string :=
  pretty (n / 10) +:+ "." +:+ pretty (n mod 10).

(** [x.toFixed(1)], for a finite [x] below 10^21 in magnitude. *)
Definition toFixed1 (x : Double) : string :=
  let '(p, q) := fraction x in
  let s := if p <? 0 then "-" else "" in
  s +:+ render_tenths (tenths (Z.abs p) q).

End Number.

Module Stats.

Record RestaurantStats := {
  average : string;
  count : nat;
}.

(** [getRestaurantStats(title)], with the [reviews] state it reads; [None]
    is the source's [null].  The sum and the quotient are those of the
    source for star ratings, as said above. *)
Definition getRestaurantStats (reviews : list Review) (title : string)
    : option RestaurantStats :=
  let restaurantReviews := filter (λ r, restaurantTitle r = title) reviews in
  if bool_decide (length restaurantReviews = 0%nat) then None
  else
    let sum := foldl (λ acc r, (acc + rating r)%Z) 0%Z restaurantReviews in
    Some {| average :=
              Number.toFixed1
                (Number.div sum (Z.of_nat (length restaurantReviews)));
            count := length restaurantReviews |}.

End Stats.

(** ** components/ChatBot.tsx, with the chat half of services/gemini.ts *)

Module Chat.

(** The async iterable returned by [chat.sendMessageStream]: the chunks it
    yields, and whether it raises once they are consumed instead of
    completing. *)
Record ResponseStream := {
  chunks : list Provider.GenerateContentResponse;
  raises : bool;
}.

(** The object returned by [ai.chats.create]. *)
Record ChatSession := {
  session_model : string;
  systemInstruction : string;
}.

Record State := {
  isOpen : bool;
  input : string;
  messages : list ChatMessage;
  isLoading : bool;
}.

Definition welcome : ChatMessage := {|
  id := "welcome";
  role := model;
  content := "Hello! I am your AI food assistant. Ask me anything about cuisines, ingredients, or cooking tips.";
  isStreaming := None;
|}.

Definition initialState : State := {|
  isOpen := false;
  input := "";
  messages := [welcome];
  isLoading := false;
|}.

(** A state update waiting for the next render.  [setMessages] is always
    called with an updater function [prev => ...], which React runs during
    that render and not at the call.  The updater of the streaming loop
    reads the variable [fullContent] of [handleSend] in its body: it sees
    the value the variable has when the updater runs.  That value is the
    first argument of [updater]; the other updaters do not use it. *)
Inductive Update :=
  | SetInput (v : string)
  | SetIsLoading (v : bool)
  | SetMessages (updater : string → list ChatMessage → list ChatMessage).

(** The world of the chat: the state the component holds since the last
    render, the updates queued since, the variable [let fullContent] of the
    running [handleSend], the module variable [chatSession] of the service,
    the platform's answer to each message ([None]: the call fails before a
    stream exists), the clock behind [Date.now()], the event loop
    ([renders n]: React gets to render while the handler is suspended for
    the [n]-th time), the number of suspensions so far, and the message
    list the component has shown at every render. *)
Record World := {
  state : State;
  queue : list Update;
  fullContent : string;
  chatSession : option ChatSession;
  platform : string → option ResponseStream;
  clock : nat → Z;
  clockReads : nat;
  renders : nat → bool;
  suspensions : nat;
  history : list (list ChatMessage);
}.

Definition mount (p : string → option ResponseStream) (c : nat → Z)
    (r : nat → bool) : World := {|
  state := initialState;
  queue := [];
  fullContent := "";
  chatSession := None;
  platform := p;
  clock := c;
  clockReads := 0;
  renders := r;
  suspensions := 0;
  history := [];
|}.

(** One queued update run on the state, [fullContent] being the value of
    the variable at that moment. *)
Definition apply (fullContent : string) (s : State) (u : Update) : State :=
  match u with
  | SetInput v =>
      {| isOpen := isOpen s; input := v; messages := messages s;
         isLoading := isLoading s |}
  | SetIsLoading v =>
      {| isOpen := isOpen s; input := input s; messages := messages s;
         isLoading := v |}
  | SetMessages updater =>
      {| isOpen := isOpen s; input := input s;
         messages := updater fullContent (messages s);
         isLoading := isLoading s |}
  end.

(** The state a render would give now: the queued updates run in the order
    of their calls. *)
Definition upcoming (w : World) : State :=
  foldl (apply (fullContent w)) (state w) (queue w).

(** What a render would show now that was not shown before: the upcoming
    message list; without a queued update there is no render and nothing
    new is shown. *)
Definition unrendered (w : World) : list (list ChatMessage) :=
  match queue w with
  | [] => []
  | _ => [messages (upcoming w)]
  end.

(** The message lists shown once a render has happened now. *)
Definition shown (w : World) : list (list ChatMessage) :=
  history w ++ unrendered w.

(** React renders: the queue is run and emptied, and the component holds
    and shows the resulting state. *)
Definition render : M World unit :=
  modify (λ w,
    {| state := upcoming w; queue := []; fullContent := fullContent w;
       chatSession := chatSession w; platform := platform w;
       clock := clock w; clockReads := clockReads w;
       renders := renders w; suspensions := suspensions w;
       history := shown w |}).

(** The handler is suspended at an [await] and the event loop takes over:
    React renders if it gets its turn before the handler is resumed. *)
Definition suspend : M World unit := λ w,
  let w' :=
    {| state := state w; queue := queue w; fullContent := fullContent w;
       chatSession := chatSession w; platform := platform w;
       clock := clock w; clockReads := clockReads w;
       renders := renders w; suspensions := S (suspensions w);
       history := history w |} in
  if renders w (suspensions w) then render w' else (Ok tt, w').

(** [await m]: the call is made, the handler is suspended, and it resumes
    with the outcome of the call. *)
Definition await {A} (m : M World A) : M World A := λ w,
  match m w with
  | (o, w') => (o, exec suspend w')
  end.

(** [async () => { body }], run to its end: React renders once the last
    part of the body has run, whether it returned or threw. *)
Definition async {A} (body : M World A) : M World A := λ w,
  match body w with
  | (o, w') => (o, exec render w')
  end.

Definition enqueue (u : Update) : M World unit :=
  modify (λ w,
    {| state := state w; queue := queue w ++ [u];
       fullContent := fullContent w;
       chatSession := chatSession w; platform := platform w;
       clock := clock w; clockReads := clockReads w;
       renders := renders w; suspensions := suspensions w;
       history := history w |}).

Definition setInput (v : string) : M World unit := enqueue (SetInput v).

Definition setIsLoading (v : bool) : M World unit :=
  enqueue (SetIsLoading v).

(** [setMessages(prev => updater(prev))] *)
Definition setMessages
    (updater : string → list ChatMessage → list ChatMessage)
    : M World unit :=
  enqueue (SetMessages updater).

(** [onChange={(e) => setInput(e.target.value)}], with the render that
    follows the event. *)
Definition onChange (value : string) : M World unit :=
  setInput value;; render.

(** An assignment to the variable [fullContent]. *)
Definition assignFullContent (v : string) : M World unit :=
  modify (λ w,
    {| state := state w; queue := queue w; fullContent := v;
       chatSession := chatSession w; platform := platform w;
       clock := clock w; clockReads := clockReads w;
       renders := renders w; suspensions := suspensions w;
       history := history w |}).

(** [Date.now()] *)
Definition dateNow : M World Z := λ w,
  (Ok (clock w (clockReads w)),
   {| state := state w; queue := queue w; fullContent := fullContent w;
      chatSession := chatSession w; platform := platform w;
      clock := clock w; clockReads := S (clockReads w);
      renders := renders w; suspensions := suspensions w;
      history := history w |}).

(** gemini.ts: [getChatSession] *)
Definition getChatSession : M World ChatSession := λ w,
  match chatSession w with
  | Some chat => (Ok chat, w)
  | None =>
      let chat :=
        {| session_model := "gemini-3-pro-preview";
           systemInstruction := "You are a helpful culinary assistant and food expert. You help users decide what to eat, explain culinary terms, and give general food advice. Be concise and friendly." |} in
      (Ok chat,
       {| state := state w; queue := queue w; fullContent := fullContent w;
          chatSession := Some chat; platform := platform w;
          clock := clock w; clockReads := clockReads w;
          renders := renders w; suspensions := suspensions w;
          history := history w |})
  end.

(** gemini.ts: [sendMessageStream] *)
Definition sendMessageStream (message : string) : M World ResponseStream :=
  chat ← getChatSession;
  p ← gets platform;
  match p message with
  | Some stream => mret stream
  | None => throw
  end.

(** [for await (const chunk of stream) { ... }]: the handler is suspended
    for each chunk, and once more for the end of the stream, which is
    either its completion or its failure. *)
Definition next (body : Provider.GenerateContentResponse → M World unit)
    (_ : unit) (chunk : Provider.GenerateContentResponse) : M World unit :=
  suspend;; body chunk.

Definition for_await (stream : ResponseStream)
    (body : Provider.GenerateContentResponse → M World unit)
    : M World unit :=
  for_of (chunks stream) tt (next body);;
  suspend;;
  if raises stream then throw else mret tt.

(** [{ ...msg, content: v }] and [{ ...msg, isStreaming: v }] *)
Definition with_content (v : string) (msg : ChatMessage) : ChatMessage :=
  {| id := id msg; role := role msg; content := v;
     isStreaming := isStreaming msg |}.

Definition with_isStreaming (v : bool) (msg : ChatMessage) : ChatMessage :=
  {| id := id msg; role := role msg; content := content msg;
     isStreaming := Some v |}.

Definition apology : string :=
  "Sorry, I encountered an error. Please try again.".

(** The body of the [for await] loop of [handleSend], for one chunk: the
    variable is extended at once, the updater that reads it is queued. *)
Definition absorb (botMsgId : string)
    (chunk : Provider.GenerateContentResponse) : M World unit :=
  let text := Provider.text chunk in
  if truthy text then
    before ← gets fullContent;
    assignFullContent (before +:+ default "" text);;
    setMessages (λ fullContent prev,
      (λ msg, if bool_decide (id msg = botMsgId)
              then with_content fullContent msg
              else msg) <$> prev)
  else mret tt.

Definition handleSend : M World unit :=
  async
    (s ← gets state;
     if bool_decide (Str.trim (input s) = "") || isLoading s then mret tt
     else
       now ← dateNow;
       let userMsg :=
         {| id := pretty now; role := user; content := input s;
            isStreaming := None |} in
       setMessages (λ _ prev, prev ++ [userMsg]);;
       setInput "";;
       setIsLoading true;;
       finally
         (try_catch
            (responseStream ← await (sendMessageStream (content userMsg));
             now ← dateNow;
             let botMsgId := pretty (now + 1)%Z in
             assignFullContent "";;
             setMessages (λ _ prev,
               prev ++ [{| id := botMsgId; role := model; content := "";
                           isStreaming := Some true |}]);;
             for_await responseStream (absorb botMsgId);;
             setMessages (λ _ prev,
               (λ msg, if bool_decide (id msg = botMsgId)
                       then with_isStreaming false msg
                       else msg) <$> prev))
            (now ← dateNow;
             setMessages (λ _ prev,
               prev ++ [{| id := pretty now; role := model;
                           content := apology; isStreaming := None |}])))
         (setIsLoading false)).

End Chat.

(** * Vocabulary of the properties: runs, specification-side readings,
    sample inputs *)

(** One click on a filter chip of the advanced-filter section. *)
Inductive FilterClick :=
  | ClickDietary (option : DietaryRestriction)
  | ClickAmenity (option : Amenity).

Definition click (c : FilterClick) : M Finder.World unit :=
  match c with
  | ClickDietary option => Finder.toggleDietary option
  | ClickAmenity option => Finder.toggleAmenity option
  end.

(** The world after a sequence of clicks, each click seeing the state the
    previous one left. *)
Definition clicks (cs : list FilterClick) (w : Finder.World) : Finder.World :=
  foldl (λ w c, exec (click c) w) w cs.

(** The two fixed instruction lines that close every prompt. *)
Definition closing_instructions : string :=
  Gemini.LF
  +:+ "  Provide a helpful summary of the top recommendations, mentioning their ratings, specific matches for the user's requirements, and what they are known for."
  +:+ Gemini.LF
  +:+ "  Do not invent places. Only use the Google Maps tool to find real places.".

(** The opening sentence, which names the cuisine and the price tier unless
    they are the sentinels. *)
Definition opening (cuisine price : string) : string :=
  "Find top-rated "
  +:+ (if bool_decide (cuisine = CuisineType.ANY) then "" else cuisine)
  +:+ " restaurants near me that are in the "
  +:+ (if bool_decide (price = PriceRange.ANY) then "any" else price)
  +:+ " price range. " +:+ Gemini.LF +:+ "  ".

(** The opening sentence when neither cuisine nor price is filtered: an
    empty cuisine slot and the word "any" for the price. *)
Definition unfiltered_opening : string :=
  "Find top-rated  restaurants near me that are in the any price range. "
  +:+ Gemini.LF +:+ "  ".

(** A list of values as the specification words it, comma-separated: the
    values in their order with a comma and a space between one and the next,
    nothing before the first and nothing after the last. *)
Definition comma_separated (values : list string) : string :=
  String.concat ", " values.

(** The clauses as the specification words them: one per constraint that
    is not empty, dietary first, amenities second, dish last. *)
Definition dietary_clause (dietary : list DietaryRestriction) : string :=
  "The user specifically requires these dietary options: "
  +:+ comma_separated dietary +:+ ". ".

Definition amenities_clause (amenities : list Amenity) : string :=
  "The user specifically requires these amenities: "
  +:+ comma_separated amenities +:+ ". ".

Definition dish_clause (dish : string) : string :=
  "The user is interested in these specific dishes: " +:+ dish +:+ ". ".

Definition clauses (dietary : list DietaryRestriction)
    (amenities : list Amenity) (dishes : option string) : list string :=
  (match dietary with [] => [] | _ => [dietary_clause dietary] end)
  ++ (match amenities with [] => [] | _ => [amenities_clause amenities] end)
  ++ (match dishes with
      | None | Some "" => []
      | Some dish => [dish_clause dish]
      end).

(** How many of the three optional constraints are given. *)
Definition constraints_given (dietary : list DietaryRestriction)
    (amenities : list Amenity) (dishes : option string) : nat :=
  (if bool_decide (dietary = []) then 0 else 1)
  + (if bool_decide (amenities = []) then 0 else 1)
  + (if bool_decide (dishes = None ∨ dishes = Some "") then 0 else 1).

(** No level of [candidates[0].groundingMetadata.groundingChunks] is
    missing: the chunks the provider sent. *)
Definition metadata_path (response : Provider.GenerateContentResponse)
    (chunks : list GroundingChunk) : Prop :=
  ∃ first rest metadata,
    Provider.candidates response = Some (first :: rest) ∧
    Provider.groundingMetadata first = Some metadata ∧
    Provider.groundingChunks metadata = Some chunks.

(** Some level of the path is missing: no candidate list, no first
    candidate, no grounding metadata, or no chunk list in it. *)
Definition metadata_path_broken (response : Provider.GenerateContentResponse)
    : Prop :=
  Provider.candidates response = None ∨
  Provider.candidates response = Some [] ∨
  ∃ first rest,
    Provider.candidates response = Some (first :: rest) ∧
    (Provider.groundingMetadata first = None ∨
     ∃ metadata,
       Provider.groundingMetadata first = Some metadata ∧
       Provider.groundingChunks metadata = None).

(** Sample inputs. *)
Definition sample_coords : Coordinates :=
  {| latitude := 37.75%float; longitude := (-122.5)%float |}.

Definition sample_chunk : GroundingChunk :=
  {| maps := Some {| uri := "https://maps.google.com/?cid=1";
                     title := "Thai Garden"; placeId := None;
                     placeAnswerSources := None |} |}.

Definition sample_response : Provider.GenerateContentResponse :=
  {| Provider.text := Some "";
     Provider.candidates :=
       Some [ {| Provider.groundingMetadata :=
                   Some {| Provider.groundingChunks :=
                             Some [sample_chunk] |} |} ] |}.

Definition no_geolocation : Finder.Navigator :=
  {| Finder.geolocation := None |}.

Definition located_device : Finder.Navigator :=
  {| Finder.geolocation := Some (Finder.Position sample_coords) |}.

Definition sample_finder (nav : Finder.Navigator) : Finder.World :=
  Finder.mount [] nav (λ _, Some sample_response).

(** The statuses the component holds in the course of a run: the one it
    starts from, then the one at each render. *)
Definition status_run (w : Finder.World) (m : M Finder.World unit)
    : list Finder.LocationStatus :=
  Finder.statusesVisited w (exec m w).

(** The message lists shown by a run, oldest first. *)
Definition history_since (w w' : Chat.World) : list (list ChatMessage) :=
  drop (length (Chat.history w)) (Chat.history w').

(** The model message of an exchange, as it is shown. *)
Definition bot_message (botMsgId content : string) (streaming : option bool)
    : ChatMessage :=
  {| id := botMsgId; role := model; content := content;
     isStreaming := streaming |}.

Definition chunk_of (t : string) : Provider.GenerateContentResponse :=
  {| Provider.text := Some t; Provider.candidates := None |}.

Definition sample_clock (n : nat) : Z :=
  (1700000000000 + 1000 * Z.of_nat n)%Z.

(** A chat in which the user has typed a question, on a platform that
    answers every message with [stream], at a clock that advances one
    second per reading, with a render at every suspension of a handler. *)
Definition sample_chat (stream : Chat.ResponseStream) : Chat.World :=
  exec (Chat.onChange "What is umami?")
    (Chat.mount (λ _, Some stream) sample_clock (λ _, true)).

Definition hello_world_stream : Chat.ResponseStream :=
  {| Chat.chunks := [chunk_of "Hello"; chunk_of ", "; chunk_of "world"];
     Chat.raises := false |}.

Definition midstream_failure : Chat.ResponseStream :=
  {| Chat.chunks := [chunk_of "Partial"]; Chat.raises := true |}.

(** The same chat when the chunks of the answer arrive back to back: React
    renders while the handler waits for the stream and for its first chunk,
    and does not get its turn again before the stream has ended. *)
Definition back_to_back_chat : Chat.World :=
  exec (Chat.onChange "What is umami?")
    (Chat.mount (λ _, Some hello_world_stream) sample_clock
       (λ n, bool_decide (n < 2))).

(** The component is at rest: no update waits for a render. *)
Definition at_rest (w : Chat.World) : Prop := Chat.queue w = [].

(** The white space and the line terminators of ECMAScript, by code
    point. *)
Definition white_space_code_points : list N :=
  [ 9; 10; 11; 12; 13; 32; 160; 5760;
    8192; 8193; 8194; 8195; 8196; 8197; 8198; 8199; 8200; 8201; 8202;
    8232; 8233; 8239; 8287; 12288; 65279 ]%N.

(** The UTF-8 encoding of a code point below 65536. *)
Definition utf8 (cp : N) : string :=
  (if cp <? 128 then String (ascii_of_N cp) ""
   else if cp <? 2048 then
     String (ascii_of_N (192 + cp / 64))
       (String (ascii_of_N (128 + cp mod 64)) "")
   else
     String (ascii_of_N (224 + cp / 4096))
       (String (ascii_of_N (128 + cp / 64 mod 64))
          (String (ascii_of_N (128 + cp mod 64)) "")))%N.

(** A string is blank when it is empty or made of white space only. *)
Definition blank (s : string) : Prop :=
  ∃ cps, Forall (λ cp, cp ∈ white_space_code_points) cps ∧
         s = foldr String.append "" (utf8 <$> cps).

(** Tokens of one to three bytes, none of them the beginning of another. *)
Definition tidy (tokens : list string) : Prop :=
  Forall (λ t, 1 ≤ String.length t ≤ 3) tokens ∧
  Forall (λ t, Forall (λ u, Str.prefixb t u = true → t = u) tokens) tokens.

(** A string that is a sequence of tokens. *)
Definition made_of (tokens : list string) (s : string) : Prop :=
  ∃ ts, Forall (λ t, t ∈ tokens) ts ∧ s = foldr String.append "" ts.

(** React renders during each of the next [n] suspensions of the handler:
    what the handler waits for takes long enough each time. *)
Definition paced (w : Chat.World) (n : nat) : Prop :=
  ∀ k, k < n → Chat.renders w (Chat.suspensions w + k) = true.

(** The text a chunk contributes, if any: a chunk without text, or with an
    empty one, contributes nothing. *)
Definition fragment (chunk : Provider.GenerateContentResponse)
    : option string :=
  match Provider.text chunk with
  | Some t => if bool_decide (t = "") then None else Some t
  | None => None
  end.

Definition fragments (stream : Chat.ResponseStream) : list string :=
  omap fragment (Chat.chunks stream).

(** The accumulated text after each fragment. *)
Fixpoint accumulate (acc : string) (frags : list string) : list string :=
  match frags with
  | [] => []
  | t :: ts => (acc +:+ t) :: accumulate (acc +:+ t) ts
  end.

Definition set_content (botMsgId fullContent : string)
    (prev : list ChatMessage) : list ChatMessage :=
  (λ msg, if bool_decide (id msg = botMsgId)
          then Chat.with_content fullContent msg
          else msg) <$> prev.

(** The world after one more turn of the streaming loop. *)
Definition arrive (botMsgId : string) (w : Chat.World)
    (chunk : Provider.GenerateContentResponse) : Chat.World :=
  exec (Chat.next (Chat.absorb botMsgId) tt chunk) w.

(** The state a render would give if the variable [fullContent] held [c]
    by then. *)
Definition upcoming_with (c : string) (w : Chat.World) : Chat.State :=
  foldl (Chat.apply c) (Chat.state w) (Chat.queue w).

(** The queued updaters that read [fullContent] only write it into the
    message [i]: whatever the variable holds when they run, the list is the
    same once the content of that message is written again. *)
Definition settled (i : string) (w : Chat.World) : Prop :=
  ∀ c, set_content i c (Chat.messages (upcoming_with c w))
       = set_content i c (Chat.messages (Chat.upcoming w)).

(** What a turn of the loop leaves as it was: the service, the clock, the
    event loop, and the fields of the state other than the messages. *)
Definition same_surroundings (w w' : Chat.World) : Prop :=
  Chat.chatSession w' = Chat.chatSession w ∧
  Chat.platform w' = Chat.platform w ∧
  Chat.clock w' = Chat.clock w ∧
  Chat.clockReads w' = Chat.clockReads w ∧
  Chat.renders w' = Chat.renders w ∧
  Chat.isOpen (Chat.upcoming w') = Chat.isOpen (Chat.upcoming w) ∧
  Chat.input (Chat.upcoming w') = Chat.input (Chat.upcoming w) ∧
  Chat.isLoading (Chat.upcoming w') = Chat.isLoading (Chat.upcoming w).

(** The message lists shown while the contents [cs] are shown in turn. *)
Fixpoint snapshots (botMsgId : string) (ms : list ChatMessage)
    (cs : list string) : list (list ChatMessage) :=
  match cs with
  | [] => []
  | c :: cs' =>
      set_content botMsgId c ms
      :: snapshots botMsgId (set_content botMsgId c ms) cs'
  end.

Definition user_message (w : Chat.World) : ChatMessage :=
  {| id := pretty (Chat.clock w (Chat.clockReads w)); role := user;
     content := Chat.input (Chat.state w); isStreaming := None |}.

Definition botMsgId_of (w : Chat.World) : string :=
  pretty (Chat.clock w (S (Chat.clockReads w)) + 1)%Z.

Definition apology_message (w : Chat.World) : ChatMessage :=
  {| id := pretty (Chat.clock w (S (S (Chat.clockReads w)))); role := model;
     content := Chat.apology; isStreaming := None |}.

(** The reviews of a title: the same string, character for character. *)
Definition reviews_of (title : string) (reviews : list Review) : list Review :=
  filter (λ r, restaurantTitle r = title) reviews.

(** The sum of the ratings of a list of reviews. *)
Definition rating_sum (l : list Review) : Z :=
  foldr Z.add 0%Z (rating <$> l).

(** [t] tenths is a one-decimal value nearest to [total / n]: no further
    from it than half a tenth. *)
Definition nearest_tenths (t total n : Z) : Prop :=
  (Z.abs (2 * t * n - 20 * total) ≤ n)%Z.

(** The decimal digit [d], from 0 to 9, as a character. *)
Definition decimal_digit (d : Z) : ascii :=
  ascii_of_N (Z.to_N (48 + d)).

(** [t] tenths, below ten units, written with one decimal place: the digit
    of the units, the point, the digit of the tenths. *)
Definition one_decimal (t : Z) : string :=
  String (decimal_digit (t / 10))
    (String "." (String (decimal_digit (t mod 10)) "")).

(** A rating of the review form: a whole number of stars from 1 to 5. *)
Definition star_rating (r : Review) : Prop := (1 ≤ rating r ≤ 5)%Z.

(** A [Number.Double] in the representation of [SpecFloat]. *)
Definition binary64_of (x : Number.Double) : spec_float :=
  if (Number.mantissa x =? 0)%Z then S754_zero false
  else S754_finite (Number.mantissa x <? 0)%Z
         (Z.to_pos (Z.abs (Number.mantissa x))) (Number.exponent x).

Definition review_of (title : string) (stars : Z) : Review :=
  {| review_id := "1700000000000"; restaurantTitle := title; rating := stars;
     comment := ""; timestamp := 1700000000000 |}.

Definition sample_reviews : list Review :=
  [review_of "A" 4; review_of "A" 5; review_of "B" 1].

(** * Tactics *)

(** Settles every [bool_decide] of the goal whose proposition is closed by
    [lia] or by computation. *)
Ltac decide_guards :=
  repeat match goal with
  | |- context [bool_decide ?P] =>
      first [ rewrite (bool_decide_true P) by (simpl; first [lia | done])
            | rewrite (bool_decide_false P) by (simpl; first [lia | done]) ]
  end.

(** Opens the setters and the monad of the finder's handlers. *)
Ltac finder_run :=
  unfold exec, result_of, Finder.requestLocation, Finder.handleSearch,
    Finder.onClick, Finder.getCurrentPosition, Finder.later, Finder.render,
    Finder.setLocation, Finder.setLocationStatus,
    Finder.setError, Finder.setResult, Finder.setIsSearching,
    Finder.with_state, finally, try_catch, modify, gets, throw,
    mbind, handler_bind, mret, handler_ret;
  cbn.

(** The message lists shown before the last render of an exchange are part
    of those a render at every wait would show: [Y] is the list of them. *)
Ltac shown_part Y :=
  exists (last <$> Y);
  split;
  [ rewrite !fmap_app, <- ?app_assoc; cbn [fmap list_fmap app];
    rewrite ?bool_decide_true by done;
    rewrite ?last_snoc, ?last_app_cons; reflexivity
  | match goal with
    | Hcand : ∀ shown, _ → last <$> shown `sublist_of` _,
      Hsub : ?hs ++ ?U `sublist_of` _ |- _ =>
        apply Hcand;
        match goal with
        | |- _ `sublist_of` ?b ++ _ =>
            transitivity (b ++ (hs ++ U));
            [ first
                [ reflexivity
                | by apply sublist_app; [| apply sublist_inserts_r]
                | by apply sublist_inserts_l
                | by apply sublist_inserts_l, sublist_inserts_r ]
            | by apply sublist_app ]
        end
    end ].

(** * Properties *)

(** ** Strings *)

Module StrFacts.
Import Str.

Lemma append_nil_l (a : string) : "" +:+ a = a.
Proof. reflexivity. Qed.

Lemma append_cons (x : Ascii.ascii) (a b : string) :
  String x a +:+ b = String x (a +:+ b).
Proof. reflexivity. Qed.

Lemma append_assoc (a b c : string) : (a +:+ b) +:+ c = a +:+ (b +:+ c).
Proof.
  induction a as [|x a IH]; [done |].
  rewrite !append_cons. by f_equal.
Qed.

Lemma append_nil_r (a : string) : a +:+ "" = a.
Proof.
  induction a as [|x a IH]; [done |].
  rewrite append_cons. by f_equal.
Qed.

Lemma prefixb_spec s t : prefixb s t = true ↔ ∃ post, t = s +:+ post.
Proof.
  revert t; induction s as [|a s IH]; intros t; simpl.
  - split; [intros _; by exists t | done].
  - destruct t as [|b t].
    + split; [done | intros [post H]; discriminate].
    + rewrite andb_true_iff, bool_decide_eq_true, IH. split.
      * intros [-> [post ->]]. by exists post.
      * intros [post H]. rewrite append_cons in H.
        injection H as -> ->. split; [done | by exists post].
Qed.

Lemma containsb_spec t s : containsb t s = true ↔ contains t s.
Proof.
  induction t as [|b t IH].
  - simpl. rewrite orb_false_r, prefixb_spec. split.
    + intros [post H]. by exists "", post.
    + intros [pre [post H]]. destruct pre; [by exists post | discriminate].
  - cbn [containsb]. rewrite orb_true_iff, prefixb_spec, IH. split.
    + intros [[post H] | [pre [post H]]].
      * by exists "", post.
      * exists (String b pre), post. rewrite append_cons. by rewrite H.
    + intros [pre [post H]]. destruct pre as [|c pre].
      * left. by exists post.
      * right. rewrite append_cons in H. injection H as _ H.
        by exists pre, post.
Qed.

Lemma not_contains t s : containsb t s = false → ¬ contains t s.
Proof. intros H C. apply containsb_spec in C. congruence. Qed.

Lemma contains_mid pre s post : contains (pre +:+ s +:+ post) s.
Proof. by exists pre, post. Qed.

Lemma whiteSpace_utf8 : whiteSpace = utf8 <$> white_space_code_points.
Proof. reflexivity. Qed.

Section Strip.
Variable tokens : list string.

(** [strip] removes tokens, and only tokens. *)
Lemma strip_split_bounded n : ∀ s,
  String.length s ≤ n →
  ∃ ts, Forall (λ t, t ∈ tokens) ts ∧
        s = foldr String.append "" ts +:+ strip tokens s.
Proof.
  induction n as [|n IH]; intros s Hn.
  - destruct s; [by exists [] | cbn in Hn; lia].
  - destruct s as [|c1 s1]; [by exists [] |].
    cbn [strip]. case_bool_decide as H1.
    { destruct (IH s1) as (ts & Hts & Hrest); [cbn in Hn; lia |].
      exists (String c1 "" :: ts). split; [by constructor |].
      cbn [foldr]. by rewrite append_assoc, <- Hrest. }
    destruct s1 as [|c2 s2]; [by exists [] |].
    case_bool_decide as H2.
    { destruct (IH s2) as (ts & Hts & Hrest); [cbn in Hn; lia |].
      exists (String c1 (String c2 "") :: ts). split; [by constructor |].
      cbn [foldr]. by rewrite append_assoc, <- Hrest. }
    destruct s2 as [|c3 s3]; [by exists [] |].
    case_bool_decide as H3; [| by exists []].
    destruct (IH s3) as (ts & Hts & Hrest); [cbn in Hn; lia |].
    exists (String c1 (String c2 (String c3 "")) :: ts).
    split; [by constructor |].
    cbn [foldr]. by rewrite append_assoc, <- Hrest.
Qed.

Lemma strip_split s :
  ∃ ts, Forall (λ t, t ∈ tokens) ts ∧
        s = foldr String.append "" ts +:+ strip tokens s.
Proof. by apply (strip_split_bounded (String.length s)). Qed.

Lemma strip_empty_made_of s : strip tokens s = "" → made_of tokens s.
Proof.
  intros Hs. destruct (strip_split s) as (ts & Hts & Heq).
  rewrite Hs, append_nil_r in Heq. by exists ts.
Qed.

Hypothesis Htidy : tidy tokens.

(** A token at the beginning is removed. *)
Lemma strip_token t rest :
  t ∈ tokens → strip tokens (t +:+ rest) = strip tokens rest.
Proof.
  intros Ht. destruct Htidy as [Hlen Hfree].
  rewrite Forall_forall in Hlen, Hfree.
  pose proof (Hlen t Ht) as Hl. pose proof (Hfree t Ht) as Hf.
  assert (Hshort : ∀ u, u ∈ tokens → prefixb u t = true → u = t).
  { intros u Hu. pose proof (Hfree u Hu) as Hfu.
    rewrite Forall_forall in Hfu. by apply Hfu. }
  destruct t as [|c1 [|c2 [|c3 [|c4 t]]]]; cbn in Hl; try lia.
  - rewrite ?append_cons, append_nil_l; cbn [strip]. by rewrite bool_decide_true.
  - rewrite ?append_cons, append_nil_l; cbn [strip].
    rewrite bool_decide_false; [by rewrite bool_decide_true |].
    intros H1. apply Hshort in H1; [done |].
    cbn. by rewrite bool_decide_true.
  - rewrite ?append_cons, append_nil_l; cbn [strip].
    rewrite bool_decide_false.
    2: { intros H1. apply Hshort in H1; [done |].
         cbn. by rewrite bool_decide_true. }
    rewrite bool_decide_false; [by rewrite bool_decide_true |].
    intros H2. apply Hshort in H2; [done |].
    cbn. by rewrite !bool_decide_true.
Qed.

Lemma strip_made_of s : made_of tokens s → strip tokens s = "".
Proof.
  intros (ts & Hts & ->).
  induction Hts as [|t ts Ht _ IH]; [done |].
  cbn [foldr]. by rewrite strip_token.
Qed.
End Strip.

Lemma characters_app (a b : string) :
  String.list_ascii_of_string (a +:+ b)
  = String.list_ascii_of_string a ++ String.list_ascii_of_string b.
Proof.
  induction a as [|x a IH]; [done |].
  rewrite append_cons. cbn [String.list_ascii_of_string app]. by rewrite IH.
Qed.

Lemma characters_rev_app (s1 s2 : string) :
  String.list_ascii_of_string (String.rev_app s1 s2)
  = reverse (String.list_ascii_of_string s1) ++ String.list_ascii_of_string s2.
Proof.
  revert s2. induction s1 as [|c s1 IH]; intros s2; [done |].
  cbn [String.rev_app String.list_ascii_of_string].
  by rewrite IH, reverse_cons, <- app_assoc.
Qed.

Lemma characters_rev (s : string) :
  String.list_ascii_of_string (String.rev s)
  = reverse (String.list_ascii_of_string s).
Proof. unfold String.rev. rewrite characters_rev_app. cbn. apply app_nil_r. Qed.

Lemma characters_inj (s t : string) :
  String.list_ascii_of_string s = String.list_ascii_of_string t → s = t.
Proof.
  revert t. induction s as [|x s IH]; intros [|y t] Heq; try done.
  cbn in Heq. injection Heq as -> Heq. f_equal. by apply IH.
Qed.

Lemma rev_app (a b : string) :
  String.rev (a +:+ b) = String.rev b +:+ String.rev a.
Proof.
  apply characters_inj.
  by rewrite characters_app, !characters_rev, characters_app, reverse_app.
Qed.

Lemma rev_rev (s : string) : String.rev (String.rev s) = s.
Proof.
  apply characters_inj. by rewrite !characters_rev, reverse_involutive.
Qed.

Lemma rev_empty (s : string) : String.rev s = "" ↔ s = "".
Proof.
  split; [| by intros ->].
  intros Hrev. rewrite <- (rev_rev s). by rewrite Hrev.
Qed.

Lemma made_of_app tokens (a b : string) :
  made_of tokens a → made_of tokens b → made_of tokens (a +:+ b).
Proof.
  intros (ts & Hts & ->) (us & Hus & ->). exists (ts ++ us).
  split; [by apply Forall_app |].
  clear Hts. induction ts as [|t ts IH]; [done |].
  cbn [foldr app]. by rewrite append_assoc, IH.
Qed.

Lemma made_of_rev tokens (r : string) :
  made_of (String.rev <$> tokens) r → made_of tokens (String.rev r).
Proof.
  intros (ts & Hts & ->).
  induction Hts as [|t' ts Ht' _ IH]; [by exists [] |].
  cbn [foldr]. rewrite rev_app. apply made_of_app; [done |].
  apply list_elem_of_fmap in Ht' as (t & -> & Ht).
  rewrite rev_rev. exists [t]. split; [by constructor |].
  cbn. by rewrite append_nil_r.
Qed.

Lemma made_of_white_space (s : string) : made_of whiteSpace s ↔ blank s.
Proof.
  unfold made_of, blank. rewrite whiteSpace_utf8. split.
  - intros (ts & Hts & ->).
    induction Hts as [|t ts Ht _ (cps & Hcps & IH)]; [by exists [] |].
    apply list_elem_of_fmap in Ht as (cp & -> & Hcp).
    exists (cp :: cps). split; [by constructor |].
    cbn [foldr fmap list_fmap]. by rewrite IH.
  - intros (cps & Hcps & ->). exists (utf8 <$> cps).
    split; [| done]. apply Forall_fmap. eapply Forall_impl; [done |].
    intros cp Hcp. by apply (list_elem_of_fmap_2 utf8).
Qed.

Lemma tidy_whiteSpace : tidy whiteSpace.
Proof. apply (bool_decide_unpack _). vm_compute. exact I. Qed.

(** [trim] leaves nothing exactly of the blank strings. *)
Lemma trim_empty (s : string) : trim s = "" ↔ blank s.
Proof.
  rewrite <- made_of_white_space.
  unfold trim, trimEnd, trimStart. rewrite rev_empty. split.
  - intros Hend. apply strip_empty_made_of, made_of_rev in Hend.
    rewrite rev_rev in Hend.
    destruct (strip_split whiteSpace s) as (ts & Hts & Heq).
    rewrite Heq. apply made_of_app; [by exists ts | done].
  - intros Hs. by rewrite (strip_made_of _ tidy_whiteSpace s Hs).
Qed.

Example trim_samples :
  trim "  What is umami? " = "What is umami?" ∧
  trim (utf8 160) = "" ∧
  trim (utf8 65279 +:+ utf8 8195 +:+ utf8 8232) = "" ∧
  trim (utf8 8195 +:+ "a b" +:+ utf8 160) = "a b".
Proof. vm_compute. done. Qed.

End StrFacts.

(** ** Filter chips: [toggleFilter] *)

Section ToggleFilter.
Context {T : Type} {T_eq_dec : EqDecision T}.
Implicit Types (item : T) (current : list T).

Lemma toggleFilter_present item current :
  item ∈ current →
  Finder.toggleFilter item current = filter (λ i, i ≠ item) current.
Proof. intros Hin. unfold Finder.toggleFilter. by rewrite bool_decide_true. Qed.

Lemma toggleFilter_absent item current :
  item ∉ current → Finder.toggleFilter item current = current ++ [item].
Proof. intros Hin. unfold Finder.toggleFilter. by rewrite bool_decide_false. Qed.

Lemma filter_ne_absent item current :
  item ∉ current → filter (λ i, i ≠ item) current = current.
Proof.
  induction current as [|x l IH]; intros Hin; [done |].
  apply not_elem_of_cons in Hin as [Hne Hin].
  rewrite filter_cons_True by done. by rewrite IH.
Qed.

Lemma filter_ne_removes item current :
  item ∉ filter (λ i, i ≠ item) current.
Proof. rewrite list_elem_of_filter. by intros [Hne _]. Qed.

Lemma filter_ne_snoc item current :
  filter (λ i, i ≠ item) (current ++ [item])
  = filter (λ i, i ≠ item) current.
Proof.
  rewrite filter_app, filter_cons_False by (by intros Hne).
  by rewrite filter_nil, app_nil_r.
Qed.

Lemma elem_of_removed_restored item current :
  item ∈ current →
  ∀ x, x ∈ filter (λ i, i ≠ item) current ++ [item] ↔ x ∈ current.
Proof.
  intros Hin x.
  rewrite elem_of_app, list_elem_of_filter, list_elem_of_singleton.
  destruct (decide (x = item)) as [-> | Hne].
  - split; [by intros _ | by right].
  - split; [by intros [[_ ?] | ?] | by left].
Qed.

Lemma toggleFilter_NoDup item current :
  NoDup current → NoDup (Finder.toggleFilter item current).
Proof.
  intros Hnd. destruct (decide (item ∈ current)) as [Hin | Hin].
  - rewrite toggleFilter_present by done. by apply NoDup_filter.
  - rewrite toggleFilter_absent by done.
    apply NoDup_app. split_and!; [done | | apply NoDup_singleton].
    intros x Hx Hx'. apply list_elem_of_singleton in Hx'. by subst.
Qed.

Lemma toggleFilter_twice_eq item current :
  Finder.toggleFilter item (Finder.toggleFilter item current)
  = filter (λ i, i ≠ item) current ++
    (if bool_decide (item ∈ current) then [item] else []).
Proof.
  destruct (decide (item ∈ current)) as [Hin | Hin].
  - rewrite bool_decide_true by done.
    rewrite (toggleFilter_present item current) by done.
    by rewrite toggleFilter_absent by apply filter_ne_removes.
  - rewrite bool_decide_false by done.
    rewrite (toggleFilter_absent item current) by done.
    rewrite toggleFilter_present by (apply elem_of_app; right; by left).
    by rewrite filter_ne_snoc, app_nil_r.
Qed.

(** C9. Toggling the same tag twice in succession gives back a list with
    the original contents (the same members; for a selection without
    repeats, the same elements with the same multiplicities) in which the
    elements other than the toggled tag stand in their original relative
    order; when the tag was not selected the list is the original one. *)
Theorem toggleFilter_twice item current :
  let twice := Finder.toggleFilter item (Finder.toggleFilter item current) in
  (∀ x, x ∈ twice ↔ x ∈ current) ∧
  filter (λ i, i ≠ item) twice = filter (λ i, i ≠ item) current ∧
  (NoDup current → twice ≡ₚ current) ∧
  (item ∉ current → twice = current).
Proof.
  intros twice. subst twice. rewrite toggleFilter_twice_eq.
  destruct (decide (item ∈ current)) as [Hin | Hin].
  - rewrite bool_decide_true by done. split_and!.
    + by apply elem_of_removed_restored.
    + by rewrite filter_ne_snoc, list_filter_filter_l by done.
    + intros Hnd. apply NoDup_Permutation; [| done |].
      * apply NoDup_app. split_and!;
          [by apply NoDup_filter | | apply NoDup_singleton].
        intros x Hx Hx'. apply list_elem_of_singleton in Hx'. subst.
        by apply filter_ne_removes in Hx.
      * by apply elem_of_removed_restored.
    + done.
  - rewrite bool_decide_false by done. rewrite app_nil_r.
    rewrite filter_ne_absent by done. split_and!; [done | | done | done].
    by rewrite filter_ne_absent.
Qed.
End ToggleFilter.

(** A tag that was selected comes back at the end of the list: the other
    tags keep their order, the toggled one moves behind them. *)
Example toggleFilter_twice_selected_tag_moves_last :
  Finder.toggleFilter "Vegan" (Finder.toggleFilter "Vegan" ["Vegan"; "Halal"])
  = ["Halal"; "Vegan"].
Proof. reflexivity. Qed.

Lemma toggleFilter_twice_witness :
  NoDup ["Vegan"; "Halal"] ∧
  Finder.toggleFilter "Vegan" (Finder.toggleFilter "Vegan" ["Vegan"; "Halal"])
  ≡ₚ ["Vegan"; "Halal"].
Proof.
  assert (Hnd : NoDup ["Vegan"; "Halal"])
    by (apply (bool_decide_unpack _); vm_compute; exact I).
  split; [exact Hnd |].
  exact (proj1 (proj2 (proj2 (toggleFilter_twice "Vegan" ["Vegan"; "Halal"])))
           Hnd).
Defined.

(** ** The selection lists never hold a tag twice *)

Lemma exec_toggleDietary option w :
  Finder.dietary (Finder.state (exec (Finder.toggleDietary option) w))
  = Finder.toggleFilter option (Finder.dietary (Finder.state w)) ∧
  Finder.amenities (Finder.state (exec (Finder.toggleDietary option) w))
  = Finder.amenities (Finder.state w).
Proof. done. Qed.

Lemma exec_toggleAmenity option w :
  Finder.amenities (Finder.state (exec (Finder.toggleAmenity option) w))
  = Finder.toggleFilter option (Finder.amenities (Finder.state w)) ∧
  Finder.dietary (Finder.state (exec (Finder.toggleAmenity option) w))
  = Finder.dietary (Finder.state w).
Proof. done. Qed.

Lemma click_NoDup c w :
  NoDup (Finder.dietary (Finder.state w)) →
  NoDup (Finder.amenities (Finder.state w)) →
  NoDup (Finder.dietary (Finder.state (exec (click c) w))) ∧
  NoDup (Finder.amenities (Finder.state (exec (click c) w))).
Proof.
  intros Hd Ha. destruct c as [option | option]; cbn [click].
  - destruct (exec_toggleDietary option w) as [-> ->].
    split; [by apply toggleFilter_NoDup | done].
  - destruct (exec_toggleAmenity option w) as [-> ->].
    split; [done | by apply toggleFilter_NoDup].
Qed.

Lemma clicks_NoDup cs w :
  NoDup (Finder.dietary (Finder.state w)) →
  NoDup (Finder.amenities (Finder.state w)) →
  NoDup (Finder.dietary (Finder.state (clicks cs w))) ∧
  NoDup (Finder.amenities (Finder.state (clicks cs w))).
Proof.
  revert w. induction cs as [|c cs IH]; intros w Hd Ha; [done |].
  destruct (click_NoDup c w Hd Ha) as [Hd' Ha'].
  exact (IH _ Hd' Ha').
Qed.

(** C10. From the empty selections of a freshly mounted finder, whatever
    chips are clicked in whatever order, neither selection list ever holds a
    tag twice: a toggle appends the tag only when it is not in the list, and
    when it is, the removal leaves no occurrence of it. *)
Theorem selection_never_duplicates saved nav p (cs : list FilterClick) :
  let w := clicks cs (Finder.mount saved nav p) in
  (NoDup (Finder.dietary (Finder.state w)) ∧
   NoDup (Finder.amenities (Finder.state w))) ∧
  (∀ (item : string) current,
     item ∉ current → Finder.toggleFilter item current = current ++ [item]) ∧
  (∀ (item : string) current,
     item ∈ current →
     Finder.toggleFilter item current = filter (λ i, i ≠ item) current ∧
     item ∉ Finder.toggleFilter item current).
Proof.
  intros w. split; [| split].
  - apply clicks_NoDup; apply NoDup_nil_2.
  - intros item current. apply toggleFilter_absent.
  - intros item current Hin. rewrite toggleFilter_present by done.
    split; [done | apply filter_ne_removes].
Qed.

(** ** The prompt of the grounded search *)

Lemma prompt_shape cuisine price dietary amenities dishes :
  Gemini.prompt cuisine price dietary amenities dishes
  = "Find top-rated "
    +:+ (if bool_decide (cuisine = "Any Cuisine") then "" else cuisine)
    +:+ " restaurants near me that are in the "
    +:+ (if bool_decide (price = "Any Price") then "any" else price)
    +:+ " price range. " +:+ Gemini.LF +:+ "  "
    +:+ Gemini.filterText dietary amenities dishes +:+ closing_instructions.
Proof. reflexivity. Qed.

Lemma join_comma_separated (values : list string) :
  Str.join ", " values = comma_separated values.
Proof.
  unfold comma_separated.
  induction values as [|x [|y l] IH]; [done | done |].
  change (Str.join ", " (x :: y :: l))
    with (x +:+ ", " +:+ Str.join ", " (y :: l)).
  by rewrite IH.
Qed.

Lemma filterText_clauses dietary amenities dishes :
  Gemini.filterText dietary amenities dishes
  = foldr String.append "" (clauses dietary amenities dishes).
Proof.
  unfold Gemini.filterText, clauses, dietary_clause, amenities_clause,
    dish_clause.
  rewrite !join_comma_separated.
  destruct dietary as [|d ds], amenities as [|a as'],
    dishes as [[|c dish]|]; cbn [length truthy default from_option];
    decide_guards; cbn [negb app foldr id];
    rewrite ?StrFacts.append_nil_l, ?StrFacts.append_nil_r, ?StrFacts.append_assoc;
    reflexivity.
Qed.

Lemma constraints_given_clauses dietary amenities dishes :
  length (clauses dietary amenities dishes)
  = constraints_given dietary amenities dishes.
Proof.
  unfold clauses, constraints_given.
  destruct dietary as [|d ds], amenities as [|a as'],
    dishes as [[|c dish]|]; decide_guards; try reflexivity.
  all: rewrite bool_decide_false by (intros [?|?]; discriminate);
    reflexivity.
Qed.

(** C3. With both sentinels the opening sentence has an empty cuisine slot
    and the word "any" for the price, and nothing else of the prompt depends
    on cuisine or price; when no further constraint is given, no cuisine name
    and no price tier occurs anywhere in it.  A cuisine other than the
    sentinel occurs literally in the prompt. *)
Theorem prompt_sentinels_omitted_cuisine_literal :
  (∀ dietary amenities dishes,
     Gemini.prompt "Any Cuisine" "Any Price" dietary amenities dishes
     = unfiltered_opening +:+ Gemini.filterText dietary amenities dishes
       +:+ closing_instructions) ∧
  (∀ name dishes,
     name ∈ CuisineType.values ++ PriceRange.values →
     dishes = None ∨ dishes = Some "" →
     ¬ Str.contains (Gemini.prompt "Any Cuisine" "Any Price" [] [] dishes)
         name) ∧
  (∀ cuisine price dietary amenities dishes,
     cuisine ≠ "Any Cuisine" →
     Str.contains (Gemini.prompt cuisine price dietary amenities dishes)
       cuisine).
Proof.
  split; [| split].
  - intros dietary amenities dishes. rewrite prompt_shape.
    unfold unfiltered_opening. decide_guards.
    by rewrite !StrFacts.append_assoc.
  - intros name dishes Hin Hdish.
    assert (Gemini.prompt "Any Cuisine" "Any Price" [] [] dishes
            = Gemini.prompt "Any Cuisine" "Any Price" [] [] None) as ->
      by (by destruct Hdish as [-> | ->]).
    unfold CuisineType.values, PriceRange.values in Hin. cbn [app] in Hin.
    repeat (apply elem_of_cons in Hin as [-> | Hin];
            [apply StrFacts.not_contains; vm_compute; reflexivity |]).
    by apply elem_of_nil in Hin.
  - intros cuisine price dietary amenities dishes Hne. rewrite prompt_shape.
    rewrite bool_decide_false by done.
    apply (StrFacts.contains_mid "Find top-rated ").
Qed.

Lemma prompt_sentinels_omitted_cuisine_literal_witness :
  "Thai" ≠ "Any Cuisine" ∧
  "Vegan" ∈ CuisineType.values ++ PriceRange.values ∧
  ¬ Str.contains (Gemini.prompt "Any Cuisine" "Any Price" [] [] (Some ""))
      "Vegan" ∧
  Str.contains (Gemini.prompt "Thai" "Any Price" [] [] (Some "")) "Thai".
Proof.
  assert (Hne : "Thai" ≠ "Any Cuisine") by discriminate.
  assert (Hin : "Vegan" ∈ CuisineType.values ++ PriceRange.values)
    by (apply (bool_decide_unpack _); vm_compute; exact I).
  split; [exact Hne |]. split; [exact Hin |]. split.
  - exact (proj1 (proj2 prompt_sentinels_omitted_cuisine_literal)
             "Vegan" (Some "") Hin (or_intror eq_refl)).
  - exact (proj2 (proj2 prompt_sentinels_omitted_cuisine_literal)
             "Thai" "Any Price" [] [] (Some "") Hne).
Defined.

(** C4. The text between the opening sentence and the closing instructions
    is the concatenation of one clause per constraint that is not empty, in
    the order dietary, amenities, dish; a constraint that is empty
    contributes nothing.  The dietary and the amenities clause list their
    values comma-separated: a single value stands alone, and each further
    value follows the one before it after a comma and a space, whatever the
    values and however many.  For dietary Vegan and Gluten-Free, amenity
    Wi-Fi and dish Ramen the three clauses stand in that order. *)
Theorem prompt_clauses_in_order :
  (∀ cuisine price dietary amenities dishes,
     Gemini.prompt cuisine price dietary amenities dishes
     = opening cuisine price
       +:+ foldr String.append "" (clauses dietary amenities dishes)
       +:+ closing_instructions ∧
     length (clauses dietary amenities dishes)
     = constraints_given dietary amenities dishes) ∧
  (∀ x, comma_separated [x] = x) ∧
  (∀ x y rest,
     comma_separated (x :: y :: rest)
     = x +:+ ", " +:+ comma_separated (y :: rest)) ∧
  (∀ cuisine price a b c,
     Gemini.prompt cuisine price [a; b; c] [] None
     = opening cuisine price
       +:+ "The user specifically requires these dietary options: "
       +:+ a +:+ ", " +:+ b +:+ ", " +:+ c +:+ ". "
       +:+ closing_instructions) ∧
  (∀ cuisine price a b,
     Gemini.prompt cuisine price [] [a; b] None
     = opening cuisine price
       +:+ "The user specifically requires these amenities: "
       +:+ a +:+ ", " +:+ b +:+ ". "
       +:+ closing_instructions) ∧
  clauses ["Vegan"; "Gluten-Free"] ["Wi-Fi"] (Some "Ramen")
  = ["The user specifically requires these dietary options: Vegan, Gluten-Free. ";
     "The user specifically requires these amenities: Wi-Fi. ";
     "The user is interested in these specific dishes: Ramen. "] ∧
  clauses [] [] (Some "") = [] ∧ clauses [] [] None = [] ∧
  (let p := Gemini.prompt "Any Cuisine" "Any Price"
              ["Vegan"; "Gluten-Free"] ["Wi-Fi"] (Some "Ramen") in
   ∃ i j k,
     Str.indexOf p (dietary_clause ["Vegan"; "Gluten-Free"]) = Some i ∧
     Str.indexOf p (amenities_clause ["Wi-Fi"]) = Some j ∧
     Str.indexOf p (dish_clause "Ramen") = Some k ∧
     i < j < k).
Proof.
  assert (Hprompt : ∀ cuisine price dietary amenities dishes,
            Gemini.prompt cuisine price dietary amenities dishes
            = opening cuisine price
              +:+ foldr String.append "" (clauses dietary amenities dishes)
              +:+ closing_instructions).
  { intros. rewrite prompt_shape, filterText_clauses. unfold opening.
    by rewrite !StrFacts.append_assoc. }
  split; [| split_and!; try reflexivity].
  - intros cuisine price dietary amenities dishes.
    split; [apply Hprompt | apply constraints_given_clauses].
  - intros cuisine price a b c. rewrite Hprompt.
    unfold clauses, dietary_clause, comma_separated.
    cbn [app foldr String.concat].
    by rewrite ?StrFacts.append_nil_r, ?StrFacts.append_assoc.
  - intros cuisine price a b. rewrite Hprompt.
    unfold clauses, amenities_clause, comma_separated.
    cbn [app foldr String.concat].
    by rewrite ?StrFacts.append_nil_r, ?StrFacts.append_assoc.
  - eexists _, _, _. split_and!; [vm_compute; reflexivity .. | |];
      apply Nat.ltb_lt; vm_compute; reflexivity.
Qed.

(** ** The result of the grounded search *)

Lemma responseChunks_present response chunks :
  metadata_path response chunks → Gemini.responseChunks response = chunks.
Proof.
  intros (first & rest & metadata & Hc & Hm & Hg).
  unfold Gemini.responseChunks. rewrite Hc. cbn. rewrite Hm. cbn.
  by rewrite Hg.
Qed.

Lemma responseChunks_broken response :
  metadata_path_broken response → Gemini.responseChunks response = [].
Proof.
  unfold Gemini.responseChunks.
  intros [Hc | [Hc | (first & rest & Hc & [Hm | (metadata & Hm & Hg)])]];
    rewrite Hc; cbn; [done | done | |]; rewrite Hm; cbn; [done |].
  by rewrite Hg.
Qed.

Lemma findRestaurants_returns {W} `{AiModels W} coords cuisine price
    dietary amenities dishes (w w' : W) response :
  generateContent
    {| Provider.model := "gemini-2.5-flash";
       Provider.contents := Gemini.prompt cuisine price dietary amenities dishes;
       Provider.latLng := {| latitude := latitude coords;
                             longitude := longitude coords |} |} w
  = (Ok response, w') →
  Gemini.findRestaurants coords cuisine price dietary amenities dishes w
  = (Ok {| text := Gemini.responseText response;
           groundingChunks := Gemini.responseChunks response |}, w').
Proof.
  intros Hcall. unfold Gemini.findRestaurants, try_catch, mbind, handler_bind.
  by rewrite Hcall.
Qed.

(** C6. Whatever response the provider gives, [findRestaurants] returns a
    result and does not throw; its text is the provider's text when that is
    a non-empty string and "No details found." when it is empty or absent;
    its chunks are the provider's chunk list when every level of the
    metadata path is there and the empty list when any level is missing. *)
Theorem findRestaurants_normalises {W} `{AiModels W} coords cuisine price
    dietary amenities dishes (w w' : W) response :
  generateContent
    {| Provider.model := "gemini-2.5-flash";
       Provider.contents := Gemini.prompt cuisine price dietary amenities dishes;
       Provider.latLng := {| latitude := latitude coords;
                             longitude := longitude coords |} |} w
  = (Ok response, w') →
  ∃ r,
    Gemini.findRestaurants coords cuisine price dietary amenities dishes w
    = (Ok r, w') ∧
    (∀ t, Provider.text response = Some t → t ≠ "" → text r = t) ∧
    (Provider.text response = Some "" ∨ Provider.text response = None →
     text r = "No details found.") ∧
    (∀ chunks, metadata_path response chunks → groundingChunks r = chunks) ∧
    (metadata_path_broken response → groundingChunks r = []).
Proof.
  intros Hcall. eexists. split; [by apply findRestaurants_returns |].
  cbn [text groundingChunks]. split_and!.
  - intros t Ht Hne. unfold Gemini.responseText. rewrite Ht. cbn.
    by rewrite bool_decide_false.
  - unfold Gemini.responseText. by intros [-> | ->].
  - apply responseChunks_present.
  - apply responseChunks_broken.
Qed.

Lemma findRestaurants_normalises_witness :
  ∃ r,
    Gemini.findRestaurants sample_coords "Thai" "$$" ["Vegan"] [] None
      (sample_finder located_device)
    = (Ok r, exec (Gemini.findRestaurants sample_coords "Thai" "$$" ["Vegan"]
                     [] None) (sample_finder located_device)) ∧
    (∀ t, Provider.text sample_response = Some t → t ≠ "" → text r = t) ∧
    (Provider.text sample_response = Some "" ∨
     Provider.text sample_response = None →
     text r = "No details found.") ∧
    (∀ chunks,
       metadata_path sample_response chunks → groundingChunks r = chunks) ∧
    (metadata_path_broken sample_response → groundingChunks r = []).
Proof.
  apply (findRestaurants_normalises sample_coords "Thai" "$$" ["Vegan"] []
           None (sample_finder located_device)).
  reflexivity.
Defined.

(** ** Search needs a location *)

(** With a location, the search reaches the AI service once. *)
Lemma handleSearch_calls_service (w : Finder.World) loc :
  Finder.location (Finder.state w) = Some loc →
  length (Finder.aiCalls (exec Finder.handleSearch w))
  = S (length (Finder.aiCalls w)).
Proof.
  intros Hloc. finder_run. rewrite Hloc. cbn.
  unfold Gemini.findRestaurants, generateContent, Finder.finder_ai.
  finder_run.
  destruct (Finder.provider w _); cbn; rewrite length_app; cbn; lia.
Qed.

(** C5. A search without a location sets the error message to "Please
    enable location services to find restaurants nearby.", sends nothing to
    the AI service, and leaves the result and the searching flag as they
    were. *)
Theorem handleSearch_without_location (w : Finder.World) :
  Finder.location (Finder.state w) = None →
  let w' := exec Finder.handleSearch w in
  Finder.error (Finder.state w')
  = Some "Please enable location services to find restaurants nearby." ∧
  Finder.aiCalls w' = Finder.aiCalls w ∧
  Finder.result (Finder.state w') = Finder.result (Finder.state w) ∧
  Finder.isSearching (Finder.state w') = Finder.isSearching (Finder.state w).
Proof.
  intros Hloc. finder_run. by rewrite Hloc.
Qed.

Lemma handleSearch_without_location_witness :
  Finder.location (Finder.state (sample_finder located_device)) = None ∧
  let w' := exec Finder.handleSearch (sample_finder located_device) in
  Finder.error (Finder.state w')
  = Some "Please enable location services to find restaurants nearby." ∧
  Finder.aiCalls w' = [] ∧
  Finder.result (Finder.state w') = None ∧
  Finder.isSearching (Finder.state w') = false.
Proof.
  split; [reflexivity |].
  apply (handleSearch_without_location (sample_finder located_device)).
  reflexivity.
Defined.

(** ** The location status *)

Lemma status_run_requestLocation (w : Finder.World) :
  Finder.needsRender w = false →
  status_run w (Finder.onClick Finder.requestLocation)
  = Finder.locationStatus (Finder.state w) ::
    match Finder.geolocation (Finder.navigator w) with
    | Some (Finder.Position _) => [Finder.loading; Finder.success]
    | Some (Finder.PositionError _) => [Finder.loading; Finder.error_status]
    | None => [Finder.error_status]
    end.
Proof.
  intros Hrest. unfold status_run, Finder.statusesVisited. finder_run.
  destruct (Finder.geolocation (Finder.navigator w)) as [[coords | code] |];
    cbn; rewrite ?Hrest; cbn; f_equal;
    rewrite <- ?app_assoc; by rewrite drop_app_length.
Qed.

(** C2. From idle, a click on the location button of a device without
    geolocation takes the status the component holds from idle to error: the
    two status updates of the handler take effect together at the render
    that follows it, so neither loading nor success is ever held; the
    device is not asked for a position, no coordinates are stored and the
    error message is "Geolocation is not supported by your browser.".  On a
    device that answers with a position the status held goes idle, loading,
    success and the stored coordinates are the latitude and longitude it
    reported. *)
Theorem requestLocation_status_machine (w : Finder.World) :
  Finder.needsRender w = false →
  Finder.locationStatus (Finder.state w) = Finder.idle →
  let run := status_run w (Finder.onClick Finder.requestLocation) in
  let w' := exec (Finder.onClick Finder.requestLocation) w in
  (Finder.geolocation (Finder.navigator w) = None →
   run = [Finder.idle; Finder.error_status] ∧
   (Finder.loading ∉ run) ∧ (Finder.success ∉ run) ∧
   Finder.positionRequests w' = Finder.positionRequests w ∧
   Finder.location (Finder.state w') = Finder.location (Finder.state w) ∧
   Finder.error (Finder.state w')
   = Some "Geolocation is not supported by your browser.") ∧
  (∀ coords,
     Finder.geolocation (Finder.navigator w) = Some (Finder.Position coords) →
     run = [Finder.idle; Finder.loading; Finder.success] ∧
     Finder.location (Finder.state w')
     = Some {| latitude := latitude coords; longitude := longitude coords |} ∧
     Finder.error (Finder.state w') = None).
Proof.
  intros Hrest Hidle run w'. subst run w'.
  rewrite status_run_requestLocation, Hidle by done.
  finder_run. split.
  - intros ->. cbn. split_and!; try done.
    all: rewrite !elem_of_cons, elem_of_nil; by intros [? | [? | []]].
  - intros coords ->. by cbn.
Qed.

Lemma requestLocation_status_machine_witness :
  status_run (sample_finder no_geolocation)
    (Finder.onClick Finder.requestLocation)
  = [Finder.idle; Finder.error_status] ∧
  status_run (sample_finder located_device)
    (Finder.onClick Finder.requestLocation)
  = [Finder.idle; Finder.loading; Finder.success] ∧
  Finder.location
    (Finder.state (exec (Finder.onClick Finder.requestLocation)
                     (sample_finder located_device)))
  = Some sample_coords.
Proof.
  split; [| split].
  - exact (proj1 (proj1 (requestLocation_status_machine
                           (sample_finder no_geolocation) eq_refl eq_refl)
                    eq_refl)).
  - exact (proj1 (proj2 (requestLocation_status_machine
                           (sample_finder located_device) eq_refl eq_refl)
                    sample_coords eq_refl)).
  - exact (proj1 (proj2 (proj2 (requestLocation_status_machine
                                  (sample_finder located_device)
                                  eq_refl eq_refl)
                           sample_coords eq_refl))).
Defined.

(** ** The chat exchange *)

Lemma next_absorb_returns i chunk (w : Chat.World) :
  Chat.next (Chat.absorb i) tt chunk w = (Ok tt, arrive i w chunk).
Proof.
  unfold arrive, exec, Chat.next, Chat.absorb, Chat.suspend, Chat.render,
    Chat.setMessages, Chat.enqueue, Chat.assignFullContent, modify, gets,
    mbind, handler_bind, mret, handler_ret.
  destruct (Chat.renders w (Chat.suspensions w));
    by destruct (truthy (Provider.text chunk)).
Qed.

Lemma for_of_arrive i chunks : ∀ w : Chat.World,
  for_of chunks tt (Chat.next (Chat.absorb i)) w
  = (Ok tt, foldl (arrive i) w chunks).
Proof.
  induction chunks as [|chunk chunks IH]; intros w; [done |].
  cbn [for_of foldl]. unfold mbind at 1, handler_bind.
  rewrite next_absorb_returns. apply IH.
Qed.

(** One turn of the loop when React renders during the wait: what was
    queued is shown, and the chunk's text, if it has one, is queued. *)
Lemma arrive_paced i chunk (w : Chat.World) :
  Chat.renders w (Chat.suspensions w) = true →
  let w' := arrive i w chunk in
  Chat.shown w'
  = Chat.shown w ++
    match fragment chunk with
    | Some t => [set_content i (Chat.fullContent w +:+ t)
                   (Chat.messages (Chat.upcoming w))]
    | None => []
    end ∧
  Chat.messages (Chat.upcoming w')
  = match fragment chunk with
    | Some t => set_content i (Chat.fullContent w +:+ t)
                  (Chat.messages (Chat.upcoming w))
    | None => Chat.messages (Chat.upcoming w)
    end ∧
  Chat.fullContent w'
  = match fragment chunk with
    | Some t => Chat.fullContent w +:+ t
    | None => Chat.fullContent w
    end ∧
  Chat.suspensions w' = S (Chat.suspensions w) ∧
  same_surroundings w w'.
Proof.
  intros Hrenders.
  unfold arrive, exec, Chat.next, Chat.absorb, Chat.suspend, Chat.render,
    Chat.setMessages, Chat.enqueue, Chat.assignFullContent, modify, gets,
    mbind, handler_bind, mret, handler_ret, fragment, same_surroundings.
  rewrite Hrenders.
  destruct (Provider.text chunk) as [t |]; cbn;
    [destruct (bool_decide (t = "")); cbn |];
    unfold Chat.shown, Chat.upcoming; cbn; rewrite ?app_nil_r; done.
Qed.

Lemma paced_next (w w' : Chat.World) n :
  paced w (S n) →
  Chat.renders w' = Chat.renders w →
  Chat.suspensions w' = S (Chat.suspensions w) →
  paced w' n.
Proof.
  intros Hp Hr Hs k Hk. rewrite Hr, Hs.
  replace (S (Chat.suspensions w) + k) with (Chat.suspensions w + S k) by lia.
  apply Hp. lia.
Qed.

Lemma paced_now (w : Chat.World) n :
  paced w (S n) → Chat.renders w (Chat.suspensions w) = true.
Proof. intros Hp. rewrite <- (Nat.add_0_r (Chat.suspensions w)). apply Hp. lia. Qed.

(** The loop over the chunks of a stream when React renders during every
    wait: each accumulated text is shown in its turn. *)
Lemma arrivals_paced i chunks : ∀ w : Chat.World,
  paced w (length chunks) →
  let w' := foldl (arrive i) w chunks in
  let texts := accumulate (Chat.fullContent w) (omap fragment chunks) in
  Chat.shown w'
  = Chat.shown w ++ snapshots i (Chat.messages (Chat.upcoming w)) texts ∧
  Chat.messages (Chat.upcoming w')
  = foldl (λ ms c, set_content i c ms) (Chat.messages (Chat.upcoming w))
      texts ∧
  Chat.fullContent w'
  = foldl String.append (Chat.fullContent w) (omap fragment chunks) ∧
  Chat.suspensions w' = Chat.suspensions w + length chunks ∧
  same_surroundings w w'.
Proof.
  induction chunks as [|chunk chunks IH]; intros w Hp;
    cbn [foldl length omap list_omap].
  - cbn [accumulate snapshots foldl]. rewrite app_nil_r, Nat.add_0_r.
    by repeat split.
  - destruct (arrive_paced i chunk w (paced_now _ _ Hp))
      as (Hshown & Hmsgs & Hfull & Hsusp & Hsame).
    pose proof Hsame as (Hcs & Hpl & Hcl & Hcr & Hr & Hio & Hin & Hil).
    destruct (IH (arrive i w chunk) (paced_next _ _ _ Hp Hr Hsusp))
      as (Hshown' & Hmsgs' & Hfull' & Hsusp' & Hsame').
    destruct Hsame' as (Hcs' & Hpl' & Hcl' & Hcr' & Hr' & Hio' & Hin' & Hil').
    rewrite Hshown', Hmsgs', Hfull', Hsusp', Hshown, Hmsgs, Hfull, Hsusp.
    unfold same_surroundings.
    rewrite Hcs', Hpl', Hcl', Hcr', Hr', Hio', Hin', Hil'.
    destruct (fragment chunk) as [t |]; cbn [accumulate snapshots foldl];
      rewrite <- ?app_assoc, ?app_nil_r; cbn [app];
      split_and!; first [done | lia].
Qed.

Lemma set_content_snoc i c base c0 f :
  set_content i c (base ++ [bot_message i c0 f])
  = set_content i c base ++ [bot_message i c f].
Proof.
  unfold set_content. rewrite fmap_app. cbn.
  by rewrite bool_decide_true.
Qed.

(** While contents are shown, the model message stays last, carries the
    content shown and keeps its flag; the list keeps its length. *)
Lemma snapshots_last i f cs : ∀ base c0,
  last <$> snapshots i (base ++ [bot_message i c0 f]) cs
  = (λ c, Some (bot_message i c f)) <$> cs ∧
  Forall (λ ms, length ms = S (length base))
    (snapshots i (base ++ [bot_message i c0 f]) cs) ∧
  ∃ base',
    length base' = length base ∧
    foldl (λ ms c, set_content i c ms) (base ++ [bot_message i c0 f]) cs
    = base' ++ [bot_message i (default c0 (last cs)) f].
Proof.
  induction cs as [|c cs IH]; intros base c0;
    cbn [snapshots foldl fmap list_fmap].
  - split_and!; [done | done |]. by exists base.
  - rewrite set_content_snoc.
    destruct (IH (set_content i c base) c)
      as (-> & Hlen & base' & Hlen' & ->).
    unfold set_content in Hlen, Hlen'. rewrite length_fmap in Hlen, Hlen'.
    split_and!.
    + by rewrite last_snoc.
    + apply Forall_cons. split; [| done].
      unfold set_content. rewrite length_app, length_fmap. cbn. lia.
    + exists base'. split; [done |]. do 3 f_equal.
      rewrite (last_cons c cs). by destruct (last cs).
Qed.

Lemma accumulate_last frags : ∀ acc,
  default acc (last (accumulate acc frags)) = foldl String.append acc frags.
Proof.
  induction frags as [|t ts IH]; intros acc; [done |].
  cbn [accumulate foldl]. rewrite last_cons, <- IH.
  by destruct (last (accumulate (acc +:+ t) ts)).
Qed.

(** Writing the content of a message overwrites what was written before. *)
Lemma set_content_set_content i a b ms :
  set_content i a (set_content i b ms) = set_content i a ms.
Proof.
  unfold set_content. rewrite <- list_fmap_compose.
  apply list_fmap_ext. intros _ msg _. cbn.
  destruct (decide (id msg = i)) as [Hid | Hid].
  - rewrite (bool_decide_true (id msg = i) Hid). cbn.
    by rewrite (bool_decide_true _ Hid).
  - rewrite (bool_decide_false (id msg = i) Hid).
    by rewrite (bool_decide_false _ Hid).
Qed.

(** The fields of the state other than the messages do not depend on what
    the updaters read. *)
Lemma other_fields c c' q : ∀ s s' : Chat.State,
  Chat.isOpen s = Chat.isOpen s' → Chat.input s = Chat.input s' →
  Chat.isLoading s = Chat.isLoading s' →
  Chat.isOpen (foldl (Chat.apply c) s q)
  = Chat.isOpen (foldl (Chat.apply c') s' q) ∧
  Chat.input (foldl (Chat.apply c) s q)
  = Chat.input (foldl (Chat.apply c') s' q) ∧
  Chat.isLoading (foldl (Chat.apply c) s q)
  = Chat.isLoading (foldl (Chat.apply c') s' q).
Proof.
  induction q as [|u q IH]; intros s s' Hio Hin Hil; [done |].
  cbn [foldl]. apply IH; by destruct u.
Qed.

(** A suspension: the count goes up, and React renders or not. *)
Lemma suspend_effect (w : Chat.World) :
  Chat.suspend w
  = (Ok tt,
     if Chat.renders w (Chat.suspensions w) then
       {| Chat.state := Chat.upcoming w; Chat.queue := [];
          Chat.fullContent := Chat.fullContent w;
          Chat.chatSession := Chat.chatSession w;
          Chat.platform := Chat.platform w;
          Chat.clock := Chat.clock w; Chat.clockReads := Chat.clockReads w;
          Chat.renders := Chat.renders w;
          Chat.suspensions := S (Chat.suspensions w);
          Chat.history := Chat.shown w |}
     else
       {| Chat.state := Chat.state w; Chat.queue := Chat.queue w;
          Chat.fullContent := Chat.fullContent w;
          Chat.chatSession := Chat.chatSession w;
          Chat.platform := Chat.platform w;
          Chat.clock := Chat.clock w; Chat.clockReads := Chat.clockReads w;
          Chat.renders := Chat.renders w;
          Chat.suspensions := S (Chat.suspensions w);
          Chat.history := Chat.history w |}).
Proof. unfold Chat.suspend. by destruct (Chat.renders w (Chat.suspensions w)). Qed.

Lemma match_snoc {A B} (l : list A) (x : A) (y : B) :
  match l ++ [x] with
  | [] => []
  | _ :: _ => [y]
  end = [y].
Proof. by destruct l. Qed.

(** One turn of the loop, whether React renders during the wait or not:
    the update that is queued replaces whatever was waiting to be shown. *)
Lemma arrive_effect i chunk (w : Chat.World) :
  settled i w →
  let w' := arrive i w chunk in
  let rendered := Chat.renders w (Chat.suspensions w) in
  Chat.history w' = (if rendered then Chat.shown w else Chat.history w) ∧
  Chat.unrendered w'
  = match fragment chunk with
    | Some t => [set_content i (Chat.fullContent w +:+ t)
                   (Chat.messages (Chat.upcoming w))]
    | None => if rendered then [] else Chat.unrendered w
    end ∧
  Chat.messages (Chat.upcoming w')
  = match fragment chunk with
    | Some t => set_content i (Chat.fullContent w +:+ t)
                  (Chat.messages (Chat.upcoming w))
    | None => Chat.messages (Chat.upcoming w)
    end ∧
  Chat.fullContent w'
  = match fragment chunk with
    | Some t => Chat.fullContent w +:+ t
    | None => Chat.fullContent w
    end ∧
  Chat.suspensions w' = S (Chat.suspensions w) ∧
  same_surroundings w w' ∧
  settled i w'.
Proof.
  intros Hsettled.
  unfold arrive, exec, Chat.next, mbind, handler_bind.
  rewrite suspend_effect.
  unfold Chat.absorb, Chat.setMessages, Chat.enqueue,
    Chat.assignFullContent, modify, gets, mbind, handler_bind, mret,
    handler_ret, fragment, same_surroundings.
  destruct (Provider.text chunk) as [t |]; cbn [truthy];
    [destruct (bool_decide (t = "")); cbn [negb] |];
    destruct (Chat.renders w (Chat.suspensions w)); cbn.
  1, 5: by split_and!.
  1, 4: by split_and!.
  - split_and!; try done.
    intros c. unfold upcoming_with, Chat.upcoming. cbn.
    pose proof (set_content_set_content i) as Hover.
    unfold set_content in Hover. by rewrite !Hover.
  - set (upd := Chat.SetMessages _).
    set (c' := Chat.fullContent w +:+ t).
    assert (Hmsgs : Chat.messages
                      (foldl (Chat.apply c') (Chat.state w)
                         (Chat.queue w ++ [upd]))
                    = set_content i c' (Chat.messages (Chat.upcoming w))).
    { rewrite foldl_snoc. cbn. apply (Hsettled c'). }
    destruct (other_fields c' (Chat.fullContent w) (Chat.queue w)
                (Chat.state w) (Chat.state w) eq_refl eq_refl eq_refl)
      as (Hio & Hin & Hil).
    split_and!; try done.
    + unfold Chat.unrendered, Chat.upcoming. cbn.
      by rewrite match_snoc, Hmsgs.
    + by rewrite foldl_snoc.
    + by rewrite foldl_snoc.
    + by rewrite foldl_snoc.
    + intros c. unfold upcoming_with, Chat.upcoming. cbn.
      rewrite Hmsgs, !foldl_snoc. cbn.
      change (set_content i c
                (set_content i c
                   (Chat.messages (upcoming_with c w)))
              = set_content i c
                  (set_content i c' (Chat.messages (Chat.upcoming w)))).
      by rewrite !set_content_set_content, (Hsettled c).
Qed.

(** The loop over the chunks of a stream, whatever the renders: what is
    shown in its course is part of what a render at every wait would show,
    in the same order. *)
Lemma arrivals_effect i chunks : ∀ w : Chat.World,
  settled i w →
  let w' := foldl (arrive i) w chunks in
  let texts := accumulate (Chat.fullContent w) (omap fragment chunks) in
  (∃ hs,
     Chat.history w' = Chat.history w ++ hs ∧
     hs ++ Chat.unrendered w'
     `sublist_of` Chat.unrendered w
                  ++ snapshots i (Chat.messages (Chat.upcoming w)) texts) ∧
  Chat.messages (Chat.upcoming w')
  = foldl (λ ms c, set_content i c ms) (Chat.messages (Chat.upcoming w))
      texts ∧
  Chat.fullContent w'
  = foldl String.append (Chat.fullContent w) (omap fragment chunks) ∧
  Chat.suspensions w' = Chat.suspensions w + length chunks ∧
  same_surroundings w w'.
Proof.
  induction chunks as [|chunk chunks IH]; intros w Hsettled;
    cbn [foldl length omap list_omap].
  - cbn [accumulate snapshots foldl]. rewrite app_nil_r, Nat.add_0_r.
    split_and!; try done. exists []. by rewrite app_nil_r.
  - destruct (arrive_effect i chunk w Hsettled)
      as (Hhist & Hunr & Hmsgs & Hfull & Hsusp & Hsame & Hsettled').
    pose proof Hsame as (Hcs & Hpl & Hcl & Hcr & Hr & Hio & Hin & Hil).
    destruct (IH (arrive i w chunk) Hsettled')
      as ((hs & Hhist' & Hsub) & Hmsgs' & Hfull' & Hsusp' & Hsame').
    destruct Hsame' as (Hcs' & Hpl' & Hcl' & Hcr' & Hr' & Hio' & Hin' & Hil').
    rewrite Hmsgs', Hfull', Hsusp', Hmsgs, Hfull, Hsusp.
    unfold same_surroundings.
    rewrite Hcs', Hpl', Hcl', Hcr', Hr', Hio', Hin', Hil'.
    rewrite Hunr, Hmsgs, Hfull in Hsub. rewrite Hhist', Hhist.
    split;
      [| split_and!; first [done | lia | by destruct (fragment chunk)]].
    unfold Chat.shown.
    destruct (fragment chunk) as [t |],
      (Chat.renders w (Chat.suspensions w));
      cbn [accumulate snapshots foldl].
    + exists (Chat.unrendered w ++ hs). rewrite <- !app_assoc.
      split; [done |]. by apply sublist_app.
    + exists hs. split; [done |]. by apply sublist_inserts_l.
    + exists (Chat.unrendered w ++ hs). rewrite <- !app_assoc.
      split; [done |]. by apply sublist_app.
    + exists hs. by split.
Qed.

Lemma upcoming_unfold (w : Chat.World) :
  foldl (Chat.apply (Chat.fullContent w)) (Chat.state w) (Chat.queue w)
  = Chat.upcoming w.
Proof. reflexivity. Qed.

(** A suspension during which React renders. *)
Lemma suspend_paced (w : Chat.World) :
  Chat.renders w (Chat.suspensions w) = true →
  Chat.suspend w
  = (Ok tt,
     {| Chat.state := Chat.upcoming w; Chat.queue := [];
        Chat.fullContent := Chat.fullContent w;
        Chat.chatSession := Chat.chatSession w;
        Chat.platform := Chat.platform w;
        Chat.clock := Chat.clock w; Chat.clockReads := Chat.clockReads w;
        Chat.renders := Chat.renders w;
        Chat.suspensions := S (Chat.suspensions w);
        Chat.history := Chat.shown w |}).
Proof. intros Hrenders. unfold Chat.suspend. by rewrite Hrenders. Qed.

(** An exchange in which React renders during every wait of the handler:
    the user's message is shown, then the empty model message, then every
    accumulated text in its turn, and last either the finished message or,
    when the stream fails, the apology. *)
Lemma handleSend_exchange (w : Chat.World) stream :
  at_rest w →
  ¬ blank (Chat.input (Chat.state w)) →
  Chat.isLoading (Chat.state w) = false →
  Chat.platform w (Chat.input (Chat.state w)) = Some stream →
  paced w (length (Chat.chunks stream) + 2) →
  let w' := exec Chat.handleSend w in
  let i := botMsgId_of w in
  let full := foldl String.append "" (fragments stream) in
  last <$> history_since w w'
  = [Some (user_message w); Some (bot_message i "" (Some true))]
    ++ ((λ c, Some (bot_message i c (Some true)))
          <$> accumulate "" (fragments stream))
    ++ [Some (if Chat.raises stream then apology_message w
              else bot_message i full (Some false))] ∧
  (∃ base,
     length base = S (length (Chat.messages (Chat.state w))) ∧
     Chat.messages (Chat.state w')
     = base ++ (if Chat.raises stream
                then [bot_message i full (Some true); apology_message w]
                else [bot_message i full (Some false)])) ∧
  Chat.isLoading (Chat.state w') = false.
Proof.
  intros Hrest Htext Hidle Hstream Hp w' i full.
  assert (Hinput : Str.trim (Chat.input (Chat.state w)) ≠ "")
    by (by rewrite StrFacts.trim_empty).
  clear Htext.
  assert (Hw' : w' = exec Chat.handleSend w) by reflexivity. clearbody w'.
  subst i full. unfold botMsgId_of, fragments, user_message, apology_message.
  destruct w as [s q fc cs p c cr r n h]. unfold at_rest, paced in *.
  cbn in Hrest, Hinput, Hidle, Hstream, Hp |- *. subst q.
  assert (Hr0 : r n = true) by (rewrite <- (Nat.add_0_r n); apply Hp; lia).
  assert (Hrl : r (S n + length (Chat.chunks stream)) = true).
  { replace (S n + length (Chat.chunks stream))
      with (n + S (length (Chat.chunks stream))) by lia. apply Hp. lia. }
  set (i := pretty (c (S cr) + 1)%Z).
  set (frags := omap fragment (Chat.chunks stream)).
  set (base := Chat.messages s ++
               [{| id := pretty (c cr); role := user;
                   content := Chat.input s; isStreaming := None |}]).
  destruct (snapshots_last i (Some true) (accumulate "" frags) base "")
    as (Hlast & _ & base' & Hlen & Hfinal).
  rewrite accumulate_last in Hfinal. unfold bot_message in *.
  unfold exec, Chat.handleSend, Chat.async in Hw'.
  unfold mbind at 1, handler_bind at 1, gets at 1 in Hw'.
  cbn [Chat.state] in Hw'.
  rewrite (bool_decide_false _ Hinput), Hidle in Hw'. cbn [orb] in Hw'.
  unfold mbind, handler_bind, finally, try_catch, Chat.await,
    Chat.sendMessageStream, Chat.getChatSession, Chat.for_await,
    Chat.dateNow, Chat.setMessages, Chat.setInput, Chat.setIsLoading,
    Chat.enqueue, Chat.assignFullContent, exec,
    modify, gets, throw, mret, handler_ret,
    mbind, handler_bind in Hw'.
  cbn in Hw'.
  destruct cs as [chat |]; cbn in Hw'; rewrite Hstream in Hw'; cbn in Hw';
    rewrite suspend_paced in Hw' by exact Hr0; cbn in Hw';
    rewrite for_of_arrive in Hw'; cbn in Hw'.
  all: match type of Hw' with
       | context [foldl (arrive ?j) ?w0 ?cs] =>
           destruct (arrivals_paced j cs w0)
             as (Hshown & Hmsgs & Hfull & Hsusp & Hsame);
           [ intros k Hk; cbn; rewrite <- Nat.add_succ_r; apply Hp; lia |];
           set (wl := foldl (arrive j) w0 cs) in *
       end.
  all: destruct Hsame as (Hcs & Hpl & Hcl & Hcr & Hr & Hio & Hin & Hil).
  all: cbn in Hshown, Hmsgs, Hfull, Hsusp, Hcs, Hpl, Hcl, Hcr, Hr, Hio, Hin, Hil.
  all: rewrite suspend_paced in Hw' by (rewrite Hr, Hsusp; exact Hrl).
  all: clearbody wl.
  all: destruct (Chat.raises stream); cbn in Hw'.
  all: subst w'; unfold history_since; cbn.
  all: fold i base in Hshown, Hmsgs |- *; fold frags in Hshown, Hmsgs.
  all: rewrite Hshown, Hmsgs, ?Hcl, ?Hcr, Hfinal.
  all: rewrite <- !app_assoc, drop_app_length.
  all: rewrite ?fmap_app; cbn [fmap list_fmap app]; rewrite ?fmap_app, Hlast.
  all: cbn [fmap list_fmap app]; rewrite ?bool_decide_true by done.
  all: rewrite <- ?app_assoc; cbn [app].
  all: rewrite ?last_snoc, ?last_app_cons; unfold base at 1; rewrite last_snoc.
  all: (split; [reflexivity |]); (split; [| reflexivity]).
  all: eexists; (split; [| reflexivity]).
  all: rewrite ?length_fmap, Hlen; unfold base; rewrite length_app; cbn; lia.
Qed.

(** An exchange, whatever the renders: what is shown before the last
    render is part of the user's message, the empty model message and the
    accumulated texts, in this order; the last render shows the finished
    message or, when the stream fails, the apology; and the final list is
    the same in every case. *)
Lemma handleSend_exchange_any (w : Chat.World) stream :
  at_rest w →
  ¬ blank (Chat.input (Chat.state w)) →
  Chat.isLoading (Chat.state w) = false →
  Chat.platform w (Chat.input (Chat.state w)) = Some stream →
  let w' := exec Chat.handleSend w in
  let i := botMsgId_of w in
  let full := foldl String.append "" (fragments stream) in
  (∃ hs,
     last <$> history_since w w'
     = hs ++ [Some (if Chat.raises stream then apology_message w
                    else bot_message i full (Some false))] ∧
     hs `sublist_of`
        [Some (user_message w); Some (bot_message i "" (Some true))]
        ++ ((λ c, Some (bot_message i c (Some true)))
              <$> accumulate "" (fragments stream))) ∧
  (∃ base,
     length base = S (length (Chat.messages (Chat.state w))) ∧
     Chat.messages (Chat.state w')
     = base ++ (if Chat.raises stream
                then [bot_message i full (Some true); apology_message w]
                else [bot_message i full (Some false)])) ∧
  Chat.isLoading (Chat.state w') = false.
Proof.
  intros Hrest Htext Hidle Hstream w' i full.
  assert (Hinput : Str.trim (Chat.input (Chat.state w)) ≠ "")
    by (by rewrite StrFacts.trim_empty).
  clear Htext.
  assert (Hw' : w' = exec Chat.handleSend w) by reflexivity. clearbody w'.
  subst i full. unfold botMsgId_of, fragments, user_message, apology_message.
  destruct w as [s q fc cs p c cr r n h]. unfold at_rest in *.
  cbn in Hrest, Hinput, Hidle, Hstream |- *. subst q.
  set (i := pretty (c (S cr) + 1)%Z).
  set (frags := omap fragment (Chat.chunks stream)).
  set (base := Chat.messages s ++
               [{| id := pretty (c cr); role := user;
                   content := Chat.input s; isStreaming := None |}]).
  destruct (snapshots_last i (Some true) (accumulate "" frags) base "")
    as (Hlast & _ & base' & Hlen & Hfinal).
  rewrite accumulate_last in Hfinal. unfold bot_message in *.
  assert (Hcand : ∀ shown,
            shown `sublist_of`
              [base] ++
              (base ++ [{| id := i; role := model; content := "";
                           isStreaming := Some true |}])
              :: snapshots i
                   (base ++ [{| id := i; role := model; content := "";
                                isStreaming := Some true |}])
                   (accumulate "" frags) →
            last <$> shown `sublist_of`
              Some {| id := pretty (c cr); role := user;
                      content := Chat.input s; isStreaming := None |}
              :: Some {| id := i; role := model; content := "";
                         isStreaming := Some true |}
              :: ((λ c0, Some {| id := i; role := model; content := c0;
                                 isStreaming := Some true |})
                    <$> accumulate "" frags)).
  { intros shown Hshown. apply (fmap_sublist last) in Hshown.
    rewrite fmap_app, !fmap_cons, Hlast in Hshown.
    cbn [fmap list_fmap app] in Hshown.
    unfold base in Hshown at 1 2. by rewrite !last_snoc in Hshown. }
  unfold exec, Chat.handleSend, Chat.async in Hw'.
  unfold mbind at 1, handler_bind at 1, gets at 1 in Hw'.
  cbn [Chat.state] in Hw'.
  rewrite (bool_decide_false _ Hinput), Hidle in Hw'. cbn [orb] in Hw'.
  unfold mbind, handler_bind, finally, try_catch, Chat.await,
    Chat.sendMessageStream, Chat.getChatSession, Chat.for_await,
    Chat.dateNow, Chat.setMessages, Chat.setInput, Chat.setIsLoading,
    Chat.enqueue, Chat.assignFullContent, exec,
    modify, gets, throw, mret, handler_ret,
    mbind, handler_bind in Hw'.
  cbn in Hw'.
  destruct cs as [chat |]; cbn in Hw'; rewrite Hstream in Hw'; cbn in Hw';
    rewrite suspend_effect in Hw'; cbn in Hw'; destruct (r n); cbn in Hw';
    rewrite for_of_arrive in Hw'; cbn in Hw'.
  all: match type of Hw' with
       | context [foldl (arrive ?j) ?w0 ?cs] =>
           destruct (arrivals_effect j cs w0)
             as ((hs & Hhist & Hsub) & Hmsgs & Hfull & Hsusp & Hsame);
           [ by intros c0 |];
           set (wl := foldl (arrive j) w0 cs) in *
       end.
  all: destruct Hsame as (Hcs & Hpl & Hcl & Hcr & Hr & Hio & Hin & Hil).
  all: cbn in Hhist, Hsub, Hmsgs, Hfull, Hsusp, Hcs, Hpl, Hcl, Hcr, Hr,
         Hio, Hin, Hil.
  all: rewrite suspend_effect in Hw'.
  all: destruct (Chat.renders wl (Chat.suspensions wl)); cbn in Hw'.
  all: clearbody wl.
  all: destruct (Chat.raises stream); cbn in Hw'.
  all: subst w'; unfold history_since; cbn.
  all: fold i base in Hhist, Hsub, Hmsgs |- *; fold frags in Hsub, Hmsgs.
  all: unfold Chat.unrendered, Chat.upcoming;
    cbn [Chat.queue Chat.state Chat.fullContent];
    rewrite ?match_snoc, ?foldl_snoc, ?upcoming_unfold;
    cbn [Chat.apply Chat.messages Chat.isLoading].
  all: rewrite ?Hcl, ?Hcr, ?Hmsgs, ?Hfinal.
  all: unfold Chat.shown; rewrite Hhist.
  all: rewrite <- ?app_assoc, drop_app_length.
  all: split; [| split; [| reflexivity]].
  all: try (eexists;
            (split;
             [| rewrite ?fmap_app; cbn [fmap list_fmap];
                rewrite ?bool_decide_true by done; reflexivity]);
            rewrite ?length_fmap, Hlen; unfold base; rewrite length_app;
            cbn; lia).
  all: first
    [ shown_part ([base] ++ hs ++ Chat.unrendered wl)
    | shown_part ([base] ++ hs)
    | shown_part (hs ++ Chat.unrendered wl)
    | shown_part hs ].
Qed.

(** A send is refused when the input is blank or an exchange is under way:
    nothing changes. *)
Lemma handleSend_refused (w : Chat.World) :
  at_rest w →
  blank (Chat.input (Chat.state w)) ∨ Chat.isLoading (Chat.state w) = true →
  exec Chat.handleSend w = w.
Proof.
  intros Hrest Hguard. destruct w as [s q fc cs p c cr r n h].
  unfold at_rest in Hrest. cbn in Hrest, Hguard. subst q.
  unfold exec, Chat.handleSend, Chat.async, mbind, handler_bind, gets.
  cbn [Chat.state].
  assert (bool_decide (Str.trim (Chat.input s) = "") || Chat.isLoading s
          = true) as ->.
  { destruct Hguard as [Hblank | ->]; [| apply orb_true_r].
    by rewrite bool_decide_true by (by apply StrFacts.trim_empty). }
  cbn. unfold Chat.shown, Chat.unrendered. cbn. by rewrite app_nil_r.
Qed.

(** C8 as stated fails.  When the three chunks arrive back to back, React
    does not render between them: the updaters queued for "Hello" and for
    "Hello, " run together with the last one, at the render after the
    stream has ended, and all read the variable as it is by then.  The
    model message is shown with "" and then with "Hello, world"; it is
    never shown with "Hello" or "Hello, ". *)
Lemma handleSend_back_to_back_skips_states :
  let w := back_to_back_chat in
  let w' := exec Chat.handleSend w in
  (at_rest w ∧
   ¬ blank (Chat.input (Chat.state w)) ∧
   Chat.isLoading (Chat.state w) = false ∧
   Chat.platform w (Chat.input (Chat.state w)) = Some hello_world_stream) ∧
  last <$> history_since w w'
  = [ Some (user_message w);
      Some (bot_message "1700000001001" "" (Some true));
      Some (bot_message "1700000001001" "Hello, world" (Some false)) ] ∧
  (∀ ms msg,
     ms ∈ history_since w w' → msg ∈ ms →
     content msg ≠ "Hello" ∧ content msg ≠ "Hello, ").
Proof.
  intros w w'. split; [| split].
  - split_and!; [reflexivity | | reflexivity | reflexivity].
    rewrite <- StrFacts.trim_empty. by vm_compute.
  - vm_compute. reflexivity.
  - intros ms msg Hms Hmsg.
    remember (history_since w w') as shown eqn:Hshown.
    vm_compute in Hshown. subst shown.
    repeat (apply elem_of_cons in Hms as [-> | Hms];
            [repeat (apply elem_of_cons in Hmsg as [-> | Hmsg];
                     [split; discriminate |]);
             by apply elem_of_nil in Hmsg |]).
    by apply elem_of_nil in Hms.
Qed.

(** C8, amended.  The stream yields "Hello", ", " and "world" and
    completes.  When React renders during every wait of the handler (for
    the stream, for each of the three chunks and for the end of the
    stream), the message lists shown by the exchange end, in this order,
    with the user's message, then with the model message showing "",
    "Hello", "Hello, ", "Hello, world" while its streaming flag is true, and
    last "Hello, world" with the flag false.  Whatever the renders, what is
    shown before the last render is part of these states, in this order,
    each carrying a whole accumulated text under a true flag, and the last
    render shows "Hello, world" with the flag false. *)
Theorem handleSend_streaming_accumulation (w : Chat.World) c1 c2 c3 :
  at_rest w →
  ¬ blank (Chat.input (Chat.state w)) →
  Chat.isLoading (Chat.state w) = false →
  Chat.platform w (Chat.input (Chat.state w))
  = Some {| Chat.chunks := [c1; c2; c3]; Chat.raises := false |} →
  Provider.text c1 = Some "Hello" →
  Provider.text c2 = Some ", " →
  Provider.text c3 = Some "world" →
  let w' := exec Chat.handleSend w in
  let botMsgId := botMsgId_of w in
  let streaming :=
    [ Some (user_message w);
      Some (bot_message botMsgId "" (Some true));
      Some (bot_message botMsgId "Hello" (Some true));
      Some (bot_message botMsgId "Hello, " (Some true));
      Some (bot_message botMsgId "Hello, world" (Some true)) ] in
  let finished := Some (bot_message botMsgId "Hello, world" (Some false)) in
  (paced w 5 → last <$> history_since w w' = streaming ++ [finished]) ∧
  (∃ earlier,
     last <$> history_since w w' = earlier ++ [finished] ∧
     earlier `sublist_of` streaming) ∧
  (∃ base,
     length base = S (length (Chat.messages (Chat.state w))) ∧
     Chat.messages (Chat.state w')
     = base ++ [bot_message botMsgId "Hello, world" (Some false)]) ∧
  Chat.isLoading (Chat.state w') = false.
Proof.
  intros Hrest Htext Hidle Hstream Ht1 Ht2 Ht3.
  pose proof (handleSend_exchange_any w _ Hrest Htext Hidle Hstream) as Hany.
  pose proof (handleSend_exchange w _ Hrest Htext Hidle Hstream) as Hpaced.
  unfold fragments, fragment in Hany, Hpaced.
  cbn [Chat.chunks Chat.raises length Nat.add] in Hany, Hpaced.
  cbn [omap list_omap] in Hany, Hpaced.
  rewrite Ht1, Ht2, Ht3 in Hany, Hpaced.
  destruct Hany as (Hshown & Hfinal & Hloading).
  split; [| done].
  intros Hp. by destruct (Hpaced Hp) as (-> & _).
Qed.

Lemma handleSend_streaming_accumulation_witness :
  let w := sample_chat hello_world_stream in
  paced w 5 ∧
  last <$> history_since w (exec Chat.handleSend w)
  = [ Some (user_message w);
      Some (bot_message "1700000001001" "" (Some true));
      Some (bot_message "1700000001001" "Hello" (Some true));
      Some (bot_message "1700000001001" "Hello, " (Some true));
      Some (bot_message "1700000001001" "Hello, world" (Some true));
      Some (bot_message "1700000001001" "Hello, world" (Some false)) ].
Proof.
  assert (Hpaced : paced (sample_chat hello_world_stream) 5)
    by (intros k _; reflexivity).
  assert (Htext : ¬ blank (Chat.input
                             (Chat.state (sample_chat hello_world_stream))))
    by (rewrite <- StrFacts.trim_empty; by vm_compute).
  split; [exact Hpaced |].
  exact (proj1 (handleSend_streaming_accumulation
                  (sample_chat hello_world_stream)
                  (chunk_of "Hello") (chunk_of ", ") (chunk_of "world")
                  eq_refl Htext eq_refl eq_refl
                  eq_refl eq_refl eq_refl) Hpaced).
Defined.

(** When the stream raises after yielding "Partial", the exchange leaves
    the model message with content "Partial" and its streaming flag still
    true, directly followed by the apology as a message of its own,
    whatever the renders. *)
Lemma handleSend_midstream_failure (w : Chat.World) c :
  at_rest w →
  ¬ blank (Chat.input (Chat.state w)) →
  Chat.isLoading (Chat.state w) = false →
  Chat.platform w (Chat.input (Chat.state w))
  = Some {| Chat.chunks := [c]; Chat.raises := true |} →
  Provider.text c = Some "Partial" →
  ∃ base,
    length base = S (length (Chat.messages (Chat.state w))) ∧
    Chat.messages (Chat.state (exec Chat.handleSend w))
    = base ++ [bot_message (botMsgId_of w) "Partial" (Some true);
               apology_message w].
Proof.
  intros Hrest Htext Hidle Hstream Ht.
  pose proof (handleSend_exchange_any w _ Hrest Htext Hidle Hstream)
    as (_ & Hex & _).
  unfold fragments, fragment in Hex. cbn [Chat.chunks Chat.raises] in Hex.
  cbn [omap list_omap] in Hex. rewrite Ht in Hex.
  exact Hex.
Qed.

(** C1, on the code. After the stream yields "Partial" and raises, the
    final list is the welcome message, the user's message, the model message
    "Partial" whose streaming flag is still true, and the apology as the
    next message. *)
Theorem handleSend_midstream_failure_flag_stays_set :
  Chat.messages
    (Chat.state (exec Chat.handleSend (sample_chat midstream_failure)))
  = [ Chat.welcome;
      {| id := "1700000000000"; role := user; content := "What is umami?";
         isStreaming := None |};
      {| id := "1700000001001"; role := model; content := "Partial";
         isStreaming := Some true |};
      {| id := "1700000002000"; role := model;
         content := "Sorry, I encountered an error. Please try again.";
         isStreaming := None |} ].
Proof. vm_compute. reflexivity. Qed.

(** ** Rounding: the quotient and its tenths *)

Section NumberFacts.
Local Open Scope Z_scope.

(** The rounding step: the quotient [q] of [n] by [b] with remainder [r],
    moved up by one when the remainder is more than half of [b], or exactly
    half with [q] odd, is within half a unit of [n / b]. *)
Lemma round_half_even_error (n b : Z) :
  0 < b →
  let q := n / b in
  let r := n mod b in
  let m := if (b <? 2 * r) || ((b =? 2 * r) && Z.odd q) then q + 1 else q in
  q ≤ m ∧ Z.abs (2 * m * b - 2 * n) ≤ b.
Proof.
  intros Hb q r m.
  assert (Hn : n = b * q + r) by (apply Z.div_mod; lia).
  assert (Hr : 0 ≤ r < b) by (apply Z.mod_pos_bound; lia).
  subst m. destruct (Z.ltb_spec b (2 * r)) as [Hlt | Hge]; cbn [orb].
  - split; [lia |]. nia.
  - destruct (Z.eqb_spec b (2 * r)) as [Heq | Hne]; cbn [andb].
    + destruct (Z.odd q); split; try lia; nia.
    + split; [lia |]. nia.
Qed.

(** For a numerator below 2^48 the scaling exponent is positive and the
    scaled quotient has at least 53 bits. *)
Lemma scaled_quotient_normal (a b : Z) :
  0 < a < 2 ^ 48 → 0 < b →
  let k0 := 52 - (Z.log2 a - Z.log2 b) in
  let k := if a * 2 ^ k0 / b <? 2 ^ 52 then k0 + 1 else k0 in
  5 ≤ k0 ∧ 2 ^ 52 ≤ a * 2 ^ k / b.
Proof.
  intros Ha Hb k0 k.
  destruct (Z.log2_spec a) as [Hla Hua]; [lia |].
  destruct (Z.log2_spec b) as [Hlb Hub]; [lia |].
  assert (Hla0 : 0 ≤ Z.log2 a) by apply Z.log2_nonneg.
  assert (Hlb0 : 0 ≤ Z.log2 b) by apply Z.log2_nonneg.
  assert (Hla48 : Z.log2 a < 48) by (apply Z.log2_lt_pow2; lia).
  assert (Hk0 : 5 ≤ k0) by (subst k0; lia).
  split; [done |].
  assert (Hpow : 2 ^ Z.log2 a * 2 ^ k0 = 2 ^ 51 * 2 ^ Z.succ (Z.log2 b)).
  { rewrite <- !Z.pow_add_r by lia. f_equal. subst k0. lia. }
  assert (Hk0pos : 0 < 2 ^ k0) by (apply Z.pow_pos_nonneg; lia).
  assert (Hq0 : 2 ^ 51 ≤ a * 2 ^ k0 / b).
  { apply Z.div_le_lower_bound; [lia |]. nia. }
  subst k. destruct (Z.ltb_spec (a * 2 ^ k0 / b) (2 ^ 52)) as [Hlt | Hge];
    [| done].
  rewrite Z.pow_add_r by lia. change (2 ^ 1) with 2.
  apply Z.div_le_lower_bound; [lia |].
  assert (Hd : b * (a * 2 ^ k0 / b) ≤ a * 2 ^ k0)
    by (apply Z.mul_div_le; lia).
  nia.
Qed.

(** What [Number.div] returns for a positive numerator below 2^48: a
    significand of at least 53 bits at a negative exponent, within half a
    unit in the last place of the exact quotient. *)
Lemma div_correctly_rounded (a b : Z) :
  0 < a < 2 ^ 48 → 0 < b →
  ∃ m k,
    Number.div a b = {| Number.mantissa := m; Number.exponent := - k |} ∧
    0 < k ∧ 2 ^ 52 ≤ m ∧ Z.abs (2 * m * b - 2 * 2 ^ k * a) ≤ b.
Proof.
  intros Ha Hb. unfold Number.div.
  destruct (Z.eqb_spec a 0) as [? | _]; [lia |].
  rewrite (Z.abs_eq a), (Z.sgn_pos a) by lia.
  destruct (scaled_quotient_normal a b Ha Hb) as [Hk0 Hq].
  set (k0 := 52 - (Z.log2 a - Z.log2 b)) in *.
  unfold Number.scaled at 1.
  destruct (Z.leb_spec 0 k0) as [_ | ?]; [| lia].
  set (k := if a * 2 ^ k0 / b <? 2 ^ 52 then k0 + 1 else k0) in *.
  assert (Hk : 5 ≤ k) by (subst k; destruct (_ <? _); lia).
  unfold Number.scaled.
  destruct (Z.leb_spec 0 k) as [_ | ?]; [| lia].
  destruct (round_half_even_error (a * 2 ^ k) b Hb) as [Hm Herr].
  set (m := if (b <? 2 * ((a * 2 ^ k) mod b))
               || ((b =? 2 * ((a * 2 ^ k) mod b))
                   && Z.odd (a * 2 ^ k / b))
            then a * 2 ^ k / b + 1 else a * 2 ^ k / b) in *.
  destruct (Z.eqb_spec m (2 ^ 53)) as [Hm53 | Hm53].
  - exists (2 ^ 52), (k - 1). split; [by rewrite Z.mul_1_l |].
    split; [lia |]. split; [lia |].
    assert (Hpow : 2 ^ k = 2 * 2 ^ (k - 1)).
    { rewrite <- (Z.pow_succ_r 2 (k - 1)) by lia. f_equal. lia. }
    rewrite Hm53, Hpow in Herr. lia.
  - exists m, k. split; [by rewrite Z.mul_1_l |].
    split; [lia |]. split; [lia |].
    by replace (2 * 2 ^ k * a) with (2 * (a * 2 ^ k)) by lia.
Qed.

(** [tenths] picks a number of tenths nearest to the exact quotient, even
    though it reads the rounded one. *)
Lemma tenths_nearest (a b m k : Z) :
  0 < a < 2 ^ 48 → 0 < b → 0 < k → 2 ^ 52 ≤ m →
  Z.abs (2 * m * b - 2 * 2 ^ k * a) ≤ b →
  Z.abs (2 * Number.tenths m (2 ^ k) * b - 20 * a) ≤ b.
Proof.
  intros Ha Hb Hk Hm Herr. unfold Number.tenths.
  set (K := 2 ^ k) in *.
  assert (HK : 0 < K) by (apply Z.pow_pos_nonneg; lia).
  set (N := (20 * m + K) / (2 * K)).
  assert (Hlo : 2 * K * N ≤ 20 * m + K) by (apply Z.mul_div_le; lia).
  assert (Hhi : 20 * m + K < 2 * K * (N + 1)).
  { pose proof (Z.mul_succ_div_gt (20 * m + K) (2 * K)) as H. 
    unfold Z.succ in H. apply H. lia. }
  assert (HKa : K * a ≤ K * (2 ^ 48 - 1)) by (apply Z.mul_le_mono_nonneg_l; lia).
  assert (Hmb : 2 ^ 52 * b ≤ m * b) by (apply Z.mul_le_mono_nonneg_r; lia).
  assert (HKb : 10 * b < K) by lia.
  assert (Hlob : 2 * K * N * b ≤ (20 * m + K) * b)
    by (apply Z.mul_le_mono_nonneg_r; lia).
  assert (Hhib : (20 * m + K) * b < 2 * K * (N + 1) * b)
    by (apply Z.mul_lt_mono_pos_r; lia).
  apply Z.abs_le. split.
  - destruct (Z.le_gt_cases (- b) (2 * N * b - 20 * a)) as [? | Hlt]; [done |].
    assert (K * (2 * N * b - 20 * a) ≤ K * (- b - 1))
      by (apply Z.mul_le_mono_nonneg_l; lia).
    lia.
  - destruct (Z.le_gt_cases (2 * N * b - 20 * a) b) as [? | Hgt]; [done |].
    assert (K * (b + 1) ≤ K * (2 * N * b - 20 * a))
      by (apply Z.mul_le_mono_nonneg_l; lia).
    lia.
Qed.

(** ** The aggregate rating of a place *)

Lemma reduce_rating_sum (l : list Review) : ∀ acc,
  foldl (λ acc r, acc + rating r) acc l = acc + rating_sum l.
Proof.
  unfold rating_sum.
  induction l as [|r l IH]; intros acc; cbn [foldl foldr fmap list_fmap].
  - lia.
  - rewrite IH. lia.
Qed.

Lemma rating_sum_bounds (l : list Review) :
  Forall star_rating l →
  Z.of_nat (length l) ≤ rating_sum l ≤ 5 * Z.of_nat (length l).
Proof.
  unfold rating_sum, star_rating.
  induction 1 as [|r l Hr _ IH]; cbn [foldr fmap list_fmap length]; lia.
Qed.

Lemma toFixed1_div_nearest (a b : Z) :
  0 < a < 2 ^ 48 → 0 < b →
  ∃ t, Number.toFixed1 (Number.div a b) = Number.render_tenths t ∧
       nearest_tenths t a b.
Proof.
  intros Ha Hb.
  destruct (div_correctly_rounded a b Ha Hb) as (m & k & -> & Hk & Hm & Herr).
  unfold Number.toFixed1, Number.fraction. cbn [Number.exponent Number.mantissa].
  destruct (Z.leb_spec 0 (- k)) as [? | _]; [lia |].
  rewrite Z.opp_involutive.
  destruct (Z.ltb_spec m 0) as [? | _]; [lia |].
  rewrite Z.abs_eq by lia.
  exists (Number.tenths m (2 ^ k)). split; [done |].
  by apply tenths_nearest.
Qed.

(** Below ten units [toFixed(1)] prints one digit, the point and one
    digit. *)
Lemma render_tenths_one_decimal (t : Z) :
  0 ≤ t < 100 → Number.render_tenths t = one_decimal t.
Proof.
  intros Ht.
  assert (∃ n : nat, (n < 100)%nat ∧ t = Z.of_nat n) as (n & Hn & ->)
    by (exists (Z.to_nat t); lia).
  clear Ht. do 100 (destruct n as [|n]; [vm_compute; reflexivity |]).
  lia.
Qed.

(** A tenth nearest to a mean of star ratings lies between 1.0 and 5.0. *)
Lemma nearest_tenths_of_stars (t total n : Z) :
  0 < n → n ≤ total ≤ 5 * n → nearest_tenths t total n → 10 ≤ t ≤ 50.
Proof. unfold nearest_tenths. intros Hn Hsum Hnear. nia. Qed.

(** C7. The reviews counted for a title are those whose [restaurantTitle]
    is that very string, character for character; if there are none the
    result is [null]; otherwise the result carries their number, and, for
    star ratings from 1 to 5, an average that reads as one digit, the
    point and one digit and is a tenth nearest to their arithmetic mean.
    Ratings 4 and 5 for "A" and 1 for "B" give "4.5" and 2 for "A", "1.0"
    and 1 for "B", and [null] for "C", for "a" and for "A "; ratings 5, 4
    and 4 give "4.3". *)
Theorem getRestaurantStats_mean (reviews : list Review) (title : string) :
  let matching := reviews_of title reviews in
  let n := Z.of_nat (length matching) in
  (matching = [] → Stats.getRestaurantStats reviews title = None) ∧
  (matching ≠ [] →
   ∃ avg,
     Stats.getRestaurantStats reviews title
     = Some {| Stats.average := avg; Stats.count := length matching |}) ∧
  (matching ≠ [] → Forall star_rating matching → n < 2 ^ 32 →
   ∃ t,
     10 ≤ t ≤ 50 ∧ nearest_tenths t (rating_sum matching) n ∧
     Stats.getRestaurantStats reviews title
     = Some {| Stats.average := one_decimal t;
               Stats.count := length matching |}) ∧
  Stats.getRestaurantStats sample_reviews "A"
  = Some {| Stats.average := "4.5"; Stats.count := 2 |} ∧
  Stats.getRestaurantStats sample_reviews "B"
  = Some {| Stats.average := "1.0"; Stats.count := 1 |} ∧
  Stats.getRestaurantStats sample_reviews "C" = None ∧
  Stats.getRestaurantStats sample_reviews "a" = None ∧
  Stats.getRestaurantStats sample_reviews "A " = None ∧
  Stats.getRestaurantStats
    [review_of "A" 5; review_of "A" 4; review_of "A" 4] "A"
  = Some {| Stats.average := "4.3"; Stats.count := 3 |}.
Proof.
  intros matching n.
  assert (Hstats : matching ≠ [] →
            Stats.getRestaurantStats reviews title
            = Some {| Stats.average :=
                        Number.toFixed1 (Number.div (rating_sum matching) n);
                      Stats.count := length matching |}).
  { intros Hsome. unfold Stats.getRestaurantStats.
    fold (reviews_of title reviews). fold matching.
    rewrite bool_decide_false by (by destruct matching).
    by rewrite reduce_rating_sum, Z.add_0_l. }
  split; [| split; [| split; [| by vm_compute]]].
  - intros Hnone. unfold Stats.getRestaurantStats.
    fold (reviews_of title reviews). fold matching. by rewrite Hnone.
  - intros Hsome. eexists. by apply Hstats.
  - intros Hsome Hstars Hlen. rewrite (Hstats Hsome).
    pose proof (rating_sum_bounds matching Hstars) as Hsum. fold n in Hsum.
    assert (Hn : 0 < n) by (subst n; destruct matching; [done | cbn; lia]).
    destruct (toFixed1_div_nearest (rating_sum matching) n) as (t & -> & Hnear);
      [lia | lia |].
    pose proof (nearest_tenths_of_stars t _ n Hn Hsum Hnear) as Ht.
    exists t. split; [done |]. split; [done |].
    by rewrite render_tenths_one_decimal by lia.
Qed.

Lemma getRestaurantStats_mean_witness :
  reviews_of "A" sample_reviews ≠ [] ∧
  Forall star_rating (reviews_of "A" sample_reviews) ∧
  ∃ t,
    10 ≤ t ≤ 50 ∧ nearest_tenths t 9 2 ∧
    Stats.getRestaurantStats sample_reviews "A"
    = Some {| Stats.average := one_decimal t; Stats.count := 2 |}.
Proof.
  assert (Hne : reviews_of "A" sample_reviews ≠ []) by discriminate.
  assert (Hstars : Forall star_rating (reviews_of "A" sample_reviews))
    by (repeat constructor; cbv; by intros ?).
  split; [exact Hne |]. split; [exact Hstars |].
  exact (proj1 (proj2 (proj2 (getRestaurantStats_mean sample_reviews "A")))
           Hne Hstars ltac:(by vm_compute)).
Defined.

(** On sample operands [Number.div] gives the significand and exponent of
    the binary64 division of the standard library's IEEE 754 model. *)
Lemma div_agrees_with_binary64 :
  Forall (λ '(a, b),
            binary64_of (Number.div (Z.pos a) (Z.pos b))
            = SFdiv 53 1024 (S754_finite false a 0) (S754_finite false b 0))
    [ (9, 2); (23, 20); (21, 20); (25, 20); (1, 3); (2, 3); (5, 1); (1, 5);
      (99, 20); (19999, 20); (4503599627370497, 2); (9007199254740991, 2);
      (12884901885, 4294967295) ]%positive.
Proof. repeat constructor; vm_compute; reflexivity. Qed.

End NumberFacts.
